(** * Observable collections of microui: a shallow embedding

    Embeds [BaseObservable], [JoinedMap] and its [JoinedIterator],
    [ApplyMap], [MappedList.onUpdate], [FilteredList], [sortedIndex] and
    [findAndUpdateInArray] from the TypeScript sources, and proves or
    refutes the properties the specification states about them. *)

From Stdlib Require Import List String ZArith Bool Lia.
Import ListNotations.

(** ** JavaScript values *)

(** The values a collection can hold, with the two predicates the code
    uses to test them: strict inequality with [undefined] ([!== undefined])
    and JavaScript truthiness ([if (value)]).  Numbers are kept integral. *)
Inductive jsval : Type :=
| JUndefined
| JNull
| JBool (b : bool)
| JNum (z : Z)
| JStr (s : string)
| JObj (ref : nat).

Definition is_undefined (v : jsval) : bool :=
  match v with JUndefined => true | _ => false end.

Definition truthy (v : jsval) : bool :=
  match v with
  | JUndefined | JNull => false
  | JBool b => b
  | JNum z => negb (Z.eqb z 0)
  | JStr s => negb (String.eqb s EmptyString)
  | JObj _ => true
  end.

(** Strict equality [===]: objects compare by reference. *)
Definition jsval_eqb (a b : jsval) : bool :=
  match a, b with
  | JUndefined, JUndefined | JNull, JNull => true
  | JBool x, JBool y => Bool.eqb x y
  | JNum x, JNum y => Z.eqb x y
  | JStr x, JStr y => String.eqb x y
  | JObj x, JObj y => Nat.eqb x y
  | _, _ => false
  end.

(** ** Observable maps *)

(** A JavaScript [Map] seen through the [BaseObservableMap] contract: its
    entries in iteration (insertion) order; [get] answers [undefined] for a
    missing key. *)
Definition key := string.
Definition jsmap := list (key * jsval).

Definition map_get (m : jsmap) (k : key) : jsval :=
  match find (fun e => String.eqb (fst e) k) m with
  | Some (_, v) => v
  | None => JUndefined
  end.

(** Events a map emits to its handlers ([IMapObserver]). *)
Inductive map_event : Type :=
| MAdd (k : key) (v : jsval)
| MRemove (k : key) (v : jsval)
| MUpdate (k : key) (v : jsval) (params : jsval)
| MReset.

(** ** JoinedMap *)

Module JoinedMap.

(** A source is an object reference together with its current content;
    the same source object may in principle occur twice, so positions are
    found with [indexOf] on the reference, as the code does. *)
Definition source := (nat * jsmap)%type.

Record JoinedMap : Type := mkJoinedMap {
  _sources : list source;
  (** [_subscriptions]: [null] until [onSubscribeFirst] has subscribed to
      every source; the handles themselves carry no information here. *)
  _subscriptions : option (list nat)
}.

(** [Array.prototype.indexOf]: [-1] when absent. *)
Fixpoint indexOf (srcs : list source) (s : nat) : Z :=
  match srcs with
  | [] => -1
  | (r, _) :: rest =>
      if Nat.eqb r s then 0
      else let i := indexOf rest s in if Z.ltb i 0 then -1 else i + 1
  end.

(** [_isKeyAtSourceOccluded]: some source before [index] has a value
    other than [undefined] for [key]. *)
Definition _isKeyAtSourceOccluded (jm : JoinedMap) (s : nat) (k : key) : bool :=
  let index := indexOf (_sources jm) s in
  existsb (fun src => negb (is_undefined (map_get (snd src) k)))
          (firstn (Z.to_nat index) (_sources jm)).

(** The loop of [_getValueFromOccludedSources] over a list of sources:
    the first value that is not [undefined]. *)
Fixpoint first_defined (srcs : list source) (k : key) : jsval :=
  match srcs with
  | [] => JUndefined
  | src :: rest =>
      let v := map_get (snd src) k in
      if negb (is_undefined v) then v else first_defined rest k
  end.

(** [_getValueFromOccludedSources]: scan the sources strictly after
    [index]. *)
Definition _getValueFromOccludedSources (jm : JoinedMap) (s : nat) (k : key) : jsval :=
  let index := indexOf (_sources jm) s in
  first_defined (skipn (Z.to_nat (index + 1)) (_sources jm)) k.

(** The handlers return the events emitted to the joined map's own
    subscribers; none of them changes the joined map's state. *)
Definition onAdd (jm : JoinedMap) (s : nat) (k : key) (v : jsval) : list map_event :=
  if negb (_isKeyAtSourceOccluded jm s k) then
    let occludingValue := _getValueFromOccludedSources jm s k in
    (if negb (is_undefined occludingValue) then [MRemove k occludingValue] else [])
      ++ [MAdd k v]
  else [].

Definition onRemove (jm : JoinedMap) (s : nat) (k : key) (v : jsval) : list map_event :=
  if negb (_isKeyAtSourceOccluded jm s k) then
    MRemove k v ::
    (let occludedValue := _getValueFromOccludedSources jm s k in
     if negb (is_undefined occludedValue) then [MAdd k occludedValue] else [])
  else [].

Definition onUpdate (jm : JoinedMap) (s : nat) (k : key) (v params : jsval)
  : list map_event :=
  match _subscriptions jm with
  | None => []
  | Some _ =>
      if negb (_isKeyAtSourceOccluded jm s k) then [MUpdate k v params] else []
  end.

(** [get]: the first source whose value is truthy. *)
Definition get (jm : JoinedMap) (k : key) : jsval :=
  let fix go (srcs : list source) : jsval :=
    match srcs with
    | [] => JUndefined
    | src :: rest => let value := map_get (snd src) k in
                     if truthy value then value else go rest
    end in
  go (_sources jm).

(** [size]: the sum of the sources' sizes. *)
Definition size (jm : JoinedMap) : nat :=
  fold_left (fun sum s => sum + List.length (snd s)) (_sources jm) 0.

(** [JoinedIterator].  A source iterator is the list of the entries it
    has still to yield; [_encounteredKeys] is the [Set] of keys seen. *)
Record JoinedIterator : Type := mkJoinedIterator {
  it_sources : list jsmap;
  _sourceIndex : Z;
  _currentIterator : option (list (key * jsval));
  _encounteredKeys : list key
}.

Definition newJoinedIterator (srcs : list jsmap) : JoinedIterator :=
  mkJoinedIterator srcs (-1) None [].

(** Number of rounds the [while (!result)] loop of [next] can still run. *)
Definition loop_measure (it : JoinedIterator) : nat :=
  (match _currentIterator it with None => 0 | Some r => 2 * List.length r + 1 end)
  + fold_right (fun m acc => 2 * List.length m + 2 + acc) 0
      (skipn (Z.to_nat (_sourceIndex it + 1)) (it_sources it)).

(** One round of the loop after the [if (!this._currentIterator)] block:
    pull from the current source iterator. *)
Definition pull (it : JoinedIterator) (cur : list (key * jsval))
  : option (option (key * jsval)) * JoinedIterator :=
  match cur with
  | [] => (None, mkJoinedIterator (it_sources it) (_sourceIndex it) None
                                  (_encounteredKeys it))
  | (k, v) :: rest =>
      let it' := mkJoinedIterator (it_sources it) (_sourceIndex it) (Some rest)
                                  (_encounteredKeys it) in
      if existsb (String.eqb k) (_encounteredKeys it) then (None, it')
      else (Some (Some (k, v)),
            mkJoinedIterator (it_sources it) (_sourceIndex it) (Some rest)
                             (k :: _encounteredKeys it))
  end.

(** One round of the [while (!result)] loop: [Some None] is
    [{done: true}], [Some (Some e)] a result, [None] a round that set no
    result. *)
Definition round (it : JoinedIterator)
  : option (option (key * jsval)) * JoinedIterator :=
  match _currentIterator it with
  | Some cur => pull it cur
  | None =>
      let idx := (_sourceIndex it + 1)%Z in
      let it1 := mkJoinedIterator (it_sources it) idx None (_encounteredKeys it) in
      if Z.leb (Z.of_nat (List.length (it_sources it))) idx
      then (Some None, it1)
      else pull it1 (nth (Z.to_nat idx) (it_sources it) [])
  end.

(** The loop of [next]; [fuel] bounds the rounds. *)
Fixpoint next_loop (fuel : nat) (it : JoinedIterator)
  : option (key * jsval) * JoinedIterator :=
  match fuel with
  | O => (None, it)
  | S fuel' =>
      match round it with
      | (Some r, it') => (r, it')
      | (None, it') => next_loop fuel' it'
      end
  end.

Definition next (it : JoinedIterator) : option (key * jsval) * JoinedIterator :=
  next_loop (S (loop_measure it)) it.

(** A [for ... of] over the iterator: call [next] until it reports done. *)
Fixpoint drain (fuel : nat) (it : JoinedIterator) : list (key * jsval) :=
  match fuel with
  | O => []
  | S fuel' =>
      match next it with
      | (None, _) => []
      | (Some e, it') => e :: drain fuel' it'
      end
  end.

(** [[Symbol.iterator]()] followed by a full iteration: at most one
    result per entry of the sources. *)
Definition iterate (jm : JoinedMap) : list (key * jsval) :=
  let srcs := map snd (_sources jm) in
  drain (S (List.length (List.concat srcs))) (newJoinedIterator srcs).

End JoinedMap.

(** ** BaseObservable *)

Module BaseObservable.

(** Handlers are object references; [null] is [None].  The hooks
    [onSubscribeFirst] and [onUnsubscribeLast] are recorded in [hook_log]
    in the order they run. *)
Inductive hook : Type := SubscribeFirst | UnsubscribeLast.

Record BaseObservable : Type := mkBaseObservable {
  _handlers : list nat;          (** a [Set]: insertion order, no duplicates *)
  hook_log : list hook
}.

Definition empty : BaseObservable := mkBaseObservable [] [].

Definition set_add (s : list nat) (h : nat) : list nat :=
  if existsb (Nat.eqb h) s then s else s ++ [h].

Definition set_delete (s : list nat) (h : nat) : list nat :=
  filter (fun x => negb (Nat.eqb x h)) s.

Definition onSubscribeFirst (o : BaseObservable) : BaseObservable :=
  mkBaseObservable (_handlers o) (hook_log o ++ [SubscribeFirst]).

Definition onUnsubscribeLast (o : BaseObservable) : BaseObservable :=
  mkBaseObservable (_handlers o) (hook_log o ++ [UnsubscribeLast]).

(** [subscribe] returns the new state; the closure it returns calls
    [unsubscribe] on the captured [handler], see [unsubscribe_closure]. *)
Definition subscribe (o : BaseObservable) (handler : nat) : BaseObservable :=
  let o1 := mkBaseObservable (set_add (_handlers o) handler) (hook_log o) in
  if Nat.eqb (List.length (_handlers o1)) 1 then onSubscribeFirst o1 else o1.

(** [handler = null] only rebinds the parameter and has no effect. *)
Definition unsubscribe (o : BaseObservable) (handler : option nat) : BaseObservable :=
  match handler with
  | Some h =>
      let o1 := mkBaseObservable (set_delete (_handlers o) h) (hook_log o) in
      if Nat.eqb (List.length (_handlers o1)) 0 then onUnsubscribeLast o1 else o1
  | None => o
  end.

(** The closure [() => this.unsubscribe(handler)] returned by [subscribe]. *)
Definition unsubscribe_closure (handler : nat) (o : BaseObservable) : BaseObservable :=
  unsubscribe o (Some handler).

Definition unsubscribeAll (o : BaseObservable) : BaseObservable :=
  if negb (Nat.eqb (List.length (_handlers o)) 0)
  then onUnsubscribeLast (mkBaseObservable [] (hook_log o))
  else o.

Definition hasSubscriptions (o : BaseObservable) : bool :=
  negb (Nat.eqb (List.length (_handlers o)) 0).

End BaseObservable.

(** ** ApplyMap *)

Module ApplyMap.

(** Calls the first subscription makes, in order: subscribing to the
    source, and each invocation of the apply callback [cb] with its
    optional [params] argument. *)
Inductive action : Type :=
| SubscribeSource
| Apply (cb : nat) (k : key) (v : jsval) (params : option jsval).

(** The source is kept as its entries; subscribing to it is
    [BaseObservable.subscribe], whose default hooks emit nothing. *)
Record ApplyMap : Type := mkApplyMap {
  _source : jsmap;
  _source_observable : BaseObservable.BaseObservable;
  _apply : option nat;
  _subscription : option nat
}.

(** The reference of the [ApplyMap] object as a handler of its source. *)
Definition self : nat := 0.

Definition applyOnce (am : ApplyMap) (apply : nat) : list action :=
  map (fun '(k, v) => Apply apply k v None) (_source am).

Definition onSubscribeFirst (am : ApplyMap) : ApplyMap * list action :=
  let am1 := mkApplyMap (_source am)
               (BaseObservable.subscribe (_source_observable am) self)
               (_apply am) (Some self) in
  let calls := match _apply am1 with
               | Some apply => applyOnce am1 apply
               | None => []
               end in
  (am1, SubscribeSource :: calls).

Definition hasApply (am : ApplyMap) : bool :=
  match _apply am with Some _ => true | None => false end.

Definition setApply (am : ApplyMap) (apply : option nat) : ApplyMap * list action :=
  let am1 := mkApplyMap (_source am) (_source_observable am) apply (_subscription am) in
  (am1, match apply with Some cb => applyOnce am1 cb | None => [] end).

(** What a source handler does, in order: calls of the apply callback and
    events emitted to the map's own handlers.  [_source] is the source's
    content when the event is delivered. *)
Inductive effect : Type :=
| Call (a : action)
| Emit (e : map_event).

Definition onAdd (am : ApplyMap) (k : key) (v : jsval) : list effect :=
  match _apply am with Some cb => [Call (Apply cb k v None)] | None => [] end
  ++ [Emit (MAdd k v)].

Definition onRemove (am : ApplyMap) (k : key) (v : jsval) : list effect :=
  [Emit (MRemove k v)].

Definition onUpdate (am : ApplyMap) (k : key) (v params : jsval) : list effect :=
  match _apply am with Some cb => [Call (Apply cb k v (Some params))] | None => [] end
  ++ [Emit (MUpdate k v params)].

Definition onReset (am : ApplyMap) : list effect :=
  map Call (match _apply am with Some cb => applyOnce am cb | None => [] end)
  ++ [Emit MReset].

(** [onUnsubscribeLast]: [this._subscription!()] throws a [TypeError]
    ([None]) when there is no subscription. *)
Definition onUnsubscribeLast (am : ApplyMap) : option ApplyMap :=
  match _subscription am with
  | None => None
  | Some h =>
      Some (mkApplyMap (_source am)
                       (BaseObservable.unsubscribe_closure h (_source_observable am))
                       (_apply am) None)
  end.

(** [[Symbol.iterator]], [size] and [get] read the source. *)
Definition iterate (am : ApplyMap) : list (key * jsval) := _source am.

Definition size (am : ApplyMap) : nat := List.length (_source am).

Definition get (am : ApplyMap) (k : key) : jsval := map_get (_source am) k.

End ApplyMap.

(** ** Observable lists *)

(** Events a list emits to its handlers ([IObservableListHandler]). *)
Inductive list_event : Type :=
| LAdd (idx : nat) (v : jsval)
| LRemove (idx : nat) (v : jsval)
| LUpdate (idx : nat) (v : jsval) (params : jsval)
| LMove (from to : nat) (v : jsval)
| LReset.

(** ** MappedList *)

Module MappedList.

Record MappedList : Type := mkMappedList {
  (** [_mappedValues]: unset until [onSubscribeFirst] has built it. *)
  _mappedValues : option (list jsval)
}.

Section OnUpdate.
(** [runUpdate] comes from [BaseMappedList], outside the sources embedded
    here; it is left as a parameter. *)
Variable runUpdate :
  MappedList -> nat -> jsval -> jsval -> MappedList * list list_event.

Definition onUpdate (ml : MappedList) (index : nat) (value params : jsval)
  : MappedList * list list_event :=
  match _mappedValues ml with
  | None => (ml, [])
  | Some _ => runUpdate ml index value params
  end.
End OnUpdate.

End MappedList.

(** ** FilteredList *)

Module FilteredList.

Definition filter_fn := jsval -> nat -> bool.

Record FilteredList : Type := mkFilteredList {
  _filter : option filter_fn;
  _included : option (list bool);
  _subscription : bool
}.

(** A handler either returns the new state and the emitted events, or
    throws a [TypeError] ([None]) on a [null] dereference. *)
Definition result := option (FilteredList * list list_event).

(** Reading a [boolean[]] entry: out of range is [undefined], falsy. *)
Definition js_read (a : list bool) (i : nat) : bool :=
  match nth_error a i with Some b => b | None => false end.

(** Writing [a[i] = b] for [i <= a.length]; at [i = a.length] the array
    grows by one. *)
Definition js_write (a : list bool) (i : nat) (b : bool) : list bool :=
  if Nat.ltb i (List.length a) then firstn i a ++ b :: skipn (S i) a
  else a ++ [b].

(** [a.splice(i, 0, b)] and [a.splice(i, 1)]. *)
Definition splice_insert (a : list bool) (i : nat) (b : bool) : list bool :=
  firstn i a ++ b :: skipn i a.

Definition splice_remove (a : list bool) (i : nat) : list bool :=
  firstn i a ++ skipn (S i) a.

Definition _emitForUpdate (wasIncluded isIncluded : bool) (idx : nat) (value params : jsval)
  : list list_event :=
  if wasIncluded && negb isIncluded then [LRemove idx value]
  else if negb wasIncluded && isIncluded then [LAdd idx value]
  else if wasIncluded && isIncluded then [LUpdate idx value params]
  else [].

(** The loop of [_reapplyFilter] with a filter: [i] and [translatedIndex]
    as in the code, [inc] the (shared) [_included] array. *)
Fixpoint reapply_loop (f : filter_fn) (old : option (list bool)) (silent : bool)
    (src : list jsval) (i translatedIndex : nat) (inc : list bool)
  : list bool * list list_event :=
  match src with
  | [] => (inc, [])
  | value :: rest =>
      let isIncluded := f value i in
      let wasIncluded := match old with Some _ => js_read inc i | None => true end in
      let inc' := js_write inc i isIncluded in
      let evs := if negb silent
                 then _emitForUpdate wasIncluded isIncluded translatedIndex value JNull
                 else [] in
      let '(inc'', evs') :=
        reapply_loop f old silent rest (S i) (if isIncluded then S translatedIndex
                                              else translatedIndex) inc' in
      (inc'', evs ++ evs')
  end.

(** The loop of [_reapplyFilter] without a filter. *)
Fixpoint unfilter_loop (silent : bool) (src : list jsval) (i : nat) (inc : list bool)
  : list list_event :=
  match src with
  | [] => []
  | value :: rest =>
      (if negb (js_read inc i) && negb silent then [LAdd i value] else [])
        ++ unfilter_loop silent rest (S i) inc
  end.

(** [_reapplyFilter], reading the source's current content [src].  In the
    filtered branch [oldIncluded] and [this._included] are the same array
    when the mask exists; entry [i] is read before it is written. *)
Definition _reapplyFilter (fl : FilteredList) (src : list jsval) (silent : bool)
  : FilteredList * list list_event :=
  match _filter fl with
  | Some f =>
      let old := _included fl in
      let inc0 := match old with
                  | Some a => a
                  | None => repeat false (List.length src)
                  end in
      let '(inc, evs) := reapply_loop f old silent src 0 0 inc0 in
      (mkFilteredList (_filter fl) (Some inc) (_subscription fl), evs)
  | None =>
      match _included fl with
      | None => (fl, [])
      | Some a =>
          (mkFilteredList (_filter fl) None (_subscription fl),
           unfilter_loop silent src 0 a)
      end
  end.

Definition count_true (a : list bool) : nat :=
  List.length (filter (fun b => b) a).

Definition _translateIndex (fl : FilteredList) (idx : nat) : nat :=
  match _included fl with
  | None => idx
  | Some a => count_true (map (js_read a) (seq 0 idx))
  end.

Definition setFilter (fl : FilteredList) (f : option filter_fn) (src : list jsval)
  : FilteredList * list list_event :=
  let fl1 := mkFilteredList f (_included fl) (_subscription fl) in
  if _subscription fl then _reapplyFilter fl1 src false else (fl1, []).

(** The source handlers.  [src] is the source's content when the event is
    delivered, i.e. after the change it reports. *)
Definition onAdd (fl : FilteredList) (src : list jsval) (idx : nat) (value : jsval)
  : FilteredList * list list_event :=
  let added fl1 :=
    let ev := LAdd (_translateIndex fl1 idx) value in
    let '(fl2, evs) := _reapplyFilter fl1 src false in
    (fl2, ev :: evs) in
  match _filter fl with
  | Some f =>
      let included := f value idx in
      let fl1 := mkFilteredList (_filter fl)
                   (option_map (fun a => splice_insert a idx included) (_included fl))
                   (_subscription fl) in
      if negb included then (fl1, []) else added fl1
  | None => added fl
  end.

Definition onRemove (fl : FilteredList) (src : list jsval) (idx : nat) (value : jsval)
  : result :=
  let wasIncluded :=
    match _filter fl with
    | None => Some true
    | Some _ => option_map (fun a => js_read a idx) (_included fl)
    end in
  match wasIncluded with
  | None => None
  | Some wasIncluded =>
      let translatedIndex := _translateIndex fl idx in
      let fl1 := mkFilteredList (_filter fl)
                   (option_map (fun a => splice_remove a idx) (_included fl))
                   (_subscription fl) in
      let ev := if wasIncluded then [LRemove translatedIndex value] else [] in
      let '(fl2, evs) := _reapplyFilter fl1 src false in
      Some (fl2, ev ++ evs)
  end.

Definition onUpdate (fl : FilteredList) (idx : nat) (value params : jsval) : result :=
  match _included fl with
  | None => Some (fl, [LUpdate idx value params])
  | Some a =>
      match _filter fl with
      | None => None
      | Some f =>
          let wasIncluded := js_read a idx in
          let isIncluded := f value idx in
          let fl1 := mkFilteredList (_filter fl) (Some (js_write a idx isIncluded))
                                    (_subscription fl) in
          Some (fl1, _emitForUpdate wasIncluded isIncluded (_translateIndex fl1 idx)
                                    value params)
      end
  end.

Definition onReset (fl : FilteredList) (src : list jsval)
  : FilteredList * list list_event :=
  let '(fl1, evs) := _reapplyFilter fl src false in
  (fl1, evs ++ [LReset]).

Definition onMove (fl : FilteredList) (src : list jsval) (from to : nat) (value : jsval)
  : result :=
  match _included fl with
  | None => Some (fl, [LMove from to value])
  | Some a =>
      match _filter fl with
      | None => None
      | Some f =>
          let tfrom := _translateIndex fl from in
          let tto := _translateIndex fl to in
          let wasIncluded := js_read a from in
          let isIncluded := f value to in
          let fl1 := mkFilteredList (_filter fl)
                       (Some (splice_insert (splice_remove a from) to isIncluded))
                       (_subscription fl) in
          let ev := if wasIncluded && isIncluded then [LMove tfrom tto value]
                    else if wasIncluded && negb isIncluded then [LRemove tfrom value]
                    else if negb wasIncluded && isIncluded then [LAdd tto value]
                    else [] in
          let '(fl2, evs) := _reapplyFilter fl1 src false in
          Some (fl2, ev ++ evs)
      end
  end.

(** [onSubscribeFirst]: subscribe to the source, then build the mask
    silently. *)
Definition onSubscribeFirst (fl : FilteredList) (src : list jsval) : FilteredList :=
  let fl1 := mkFilteredList (_filter fl) (_included fl) true in
  fst (_reapplyFilter fl1 src true).

Definition onUnsubscribeLast (fl : FilteredList) : FilteredList :=
  mkFilteredList (_filter fl) None false.

Definition create (f : option filter_fn) : FilteredList :=
  mkFilteredList f None false.

(** The [length] getter: [this._included!.forEach(...)]. *)
Definition length (fl : FilteredList) : option nat :=
  option_map count_true (_included fl).

(** [FilterIterator] driven to completion over the source's entries: the
    mask is read only after the source iterator yields a value. *)
Fixpoint filter_iter (src : list jsval) (included : option (list bool)) (index : nat)
  : option (list jsval) :=
  match src with
  | [] => Some []
  | v :: rest =>
      match included with
      | None => None
      | Some a =>
          option_map (fun r => if js_read a index then v :: r else r)
                     (filter_iter rest included (S index))
      end
  end.

Definition iterate (fl : FilteredList) (src : list jsval) : option (list jsval) :=
  filter_iter src (_included fl) 0.

(** A source event together with the source's content after it. *)
Inductive source_event : Type :=
| SAdd (idx : nat) (v : jsval)
| SRemove (idx : nat) (v : jsval)
| SUpdate (idx : nat) (v params : jsval)
| SMove (from to : nat) (v : jsval)
| SReset.

Definition handle (fl : FilteredList) (src_after : list jsval) (ev : source_event)
  : result :=
  match ev with
  | SAdd idx v => Some (onAdd fl src_after idx v)
  | SRemove idx v => onRemove fl src_after idx v
  | SUpdate idx v params => onUpdate fl idx v params
  | SMove from to v => onMove fl src_after from to v
  | SReset => Some (onReset fl src_after)
  end.

End FilteredList.

(** ** sortedIndex *)

Module SortedIndex.

Definition comparator := jsval -> jsval -> Z.

(** [array[i]]: [undefined] out of range. *)
Definition at_ (array : list jsval) (i : Z) : jsval :=
  if Z.ltb i 0 then JUndefined else nth (Z.to_nat i) array JUndefined.

(** [(low + high) >>> 1]: the sum is taken modulo 2^32 before the shift. *)
Definition mid_of (low high : Z) : Z :=
  Z.shiftr ((low + high) mod 2 ^ 32) 1.

(** The [while (low < high)] loop, returning [high] on exit; [fuel]
    bounds the rounds. *)
Fixpoint loop (fuel : nat) (array : list jsval) (value : jsval) (cmp : comparator)
    (low high : Z) : Z :=
  match fuel with
  | O => high
  | S fuel' =>
      if Z.ltb low high then
        let mid := mid_of low high in
        let cmpResult := cmp value (at_ array mid) in
        if Z.ltb 0 cmpResult then loop fuel' array value cmp (mid + 1) high
        else if Z.ltb cmpResult 0 then loop fuel' array value cmp low mid
        else loop fuel' array value cmp mid mid
      else high
  end.

Definition sortedIndex (array : list jsval) (value : jsval) (cmp : comparator) : Z :=
  loop (S (List.length array)) array value cmp 0 (Z.of_nat (List.length array)).

(** The numeric comparator [(a, b) => a - b] on integral numbers; other
    values count as [0]. *)
Definition num_of (v : jsval) : Z := match v with JNum z => z | _ => 0%Z end.

Definition numeric_comparator : comparator := fun a b => (num_of a - num_of b)%Z.

End SortedIndex.

(** ** findAndUpdateInArray *)

Module FindAndUpdate.

(** [Array.prototype.findIndex]. *)
Fixpoint findIndex (predicate : jsval -> bool) (array : list jsval) : Z :=
  match array with
  | [] => -1
  | x :: rest =>
      if predicate x then 0
      else let i := findIndex predicate rest in if Z.ltb i 0 then -1 else i + 1
  end.

(** The result, the values the updater was called with, and the events
    emitted on [observable]. *)
Record outcome : Type := mkOutcome {
  found : bool;
  updater_calls : list jsval;
  emitted : list list_event
}.

Definition findAndUpdateInArray (predicate : jsval -> bool) (array : list jsval)
    (updater : jsval -> jsval) : outcome :=
  let index := findIndex predicate array in
  if negb (Z.eqb index (-1)) then
    let value := nth (Z.to_nat index) array JUndefined in
    let params := updater value in
    let evs := if negb (jsval_eqb params (JBool false))
               then [LUpdate (Z.to_nat index) value params] else [] in
    mkOutcome true [value] evs
  else mkOutcome false [] [].

End FindAndUpdate.

(** ** Vocabulary of the specification *)

(** The value of the first entry of [m] with key [k], if any. *)
Definition entry_value (m : list (key * jsval)) (k : key) : option jsval :=
  option_map snd (find (fun e => String.eqb (fst e) k) m).

(** Entries of [l] whose key was not seen before, first occurrence
    winning. *)
Fixpoint first_occ (seen : list key) (l : list (key * jsval)) : list (key * jsval) :=
  match l with
  | [] => []
  | (k, v) :: rest =>
      if existsb (String.eqb k) seen then first_occ seen rest
      else (k, v) :: first_occ (k :: seen) rest
  end.

(** The first entry of [l] whose key was not seen before, and the entries
    after it. *)
Fixpoint first_new (seen : list key) (l : list (key * jsval))
  : option ((key * jsval) * list (key * jsval)) :=
  match l with
  | [] => None
  | (k, v) :: rest =>
      if existsb (String.eqb k) seen then first_new seen rest else Some ((k, v), rest)
  end.

(** The entries a [JoinedIterator] has still to go through: the rest of
    the current source, then the sources after [_sourceIndex]. *)
Definition remaining (it : JoinedMap.JoinedIterator) : list (key * jsval) :=
  match JoinedMap._currentIterator it with Some r => r | None => [] end
  ++ List.concat (skipn (Z.to_nat (JoinedMap._sourceIndex it + 1)) (JoinedMap.it_sources it)).

(** What one round of the loop of [next] achieves, in terms of
    [remaining]. *)
Definition round_post (it : JoinedMap.JoinedIterator)
    (res : option (option (key * jsval)) * JoinedMap.JoinedIterator) : Prop :=
  let '(r, it') := res in
  JoinedMap.it_sources it' = JoinedMap.it_sources it
  /\ (-1 <= JoinedMap._sourceIndex it')%Z
  /\ match r with
     | Some None => first_new (JoinedMap._encounteredKeys it) (remaining it) = None
     | Some (Some e) =>
         first_new (JoinedMap._encounteredKeys it) (remaining it) = Some (e, remaining it')
         /\ JoinedMap._encounteredKeys it' = fst e :: JoinedMap._encounteredKeys it
     | None =>
         first_new (JoinedMap._encounteredKeys it) (remaining it)
         = first_new (JoinedMap._encounteredKeys it') (remaining it')
         /\ JoinedMap._encounteredKeys it' = JoinedMap._encounteredKeys it
         /\ (JoinedMap.loop_measure it' < JoinedMap.loop_measure it)%nat
     end.

(** An index at which [value] can be inserted into [array], ordered by
    [cmp], keeping it ordered; if some element compares equal to [value],
    the element at that index does. *)
Definition insertion_point (array : list jsval) (value : jsval)
    (cmp : SortedIndex.comparator) (r : Z) : Prop :=
  let len := Z.of_nat (List.length array) in
  (0 <= r <= len
  /\ (forall j, 0 <= j < r -> 0 <= cmp value (SortedIndex.at_ array j))
  /\ (forall j, r <= j < len -> cmp value (SortedIndex.at_ array j) <= 0)
  /\ ((exists j, 0 <= j < len /\ cmp value (SortedIndex.at_ array j) = 0) ->
      r < len /\ cmp value (SortedIndex.at_ array r) = 0))%Z.

(** [l] is [l'] with some entries left out, order kept. *)
Inductive subseq {A : Type} : list A -> list A -> Prop :=
| subseq_nil : subseq [] []
| subseq_keep x l l' : subseq l l' -> subseq (x :: l) (x :: l')
| subseq_drop x l l' : subseq l l' -> subseq l (x :: l').

Definition jsval_eq_dec (a b : jsval) : {a = b} + {a <> b}.
Proof. decide equality; auto using string_dec, Z.eq_dec, bool_dec, Nat.eq_dec. Defined.

Definition action_eq_dec (a b : ApplyMap.action) : {a = b} + {a <> b}.
Proof.
  decide equality; auto using string_dec, Nat.eq_dec, jsval_eq_dec.
  decide equality; auto using jsval_eq_dec.
Defined.

(** ** A subscriber's copy of an observable list *)

(** A handler that keeps its own copy of a list and applies each event
    it receives, by index, as [IObservableListHandler] describes them:
    [add] inserts at [idx], [remove] deletes at [idx], [update] replaces
    at [idx], [move] deletes at [from] and inserts at [to].  On [reset]
    a handler re-reads the list; the copy is then not derived from the
    events, and [reset] leaves it as it is here. *)
Definition insert_at {A : Type} (l : list A) (i : nat) (x : A) : list A :=
  firstn i l ++ x :: skipn i l.

Definition remove_at {A : Type} (l : list A) (i : nat) : list A :=
  firstn i l ++ skipn (S i) l.

Definition replace_at {A : Type} (l : list A) (i : nat) (x : A) : list A :=
  firstn i l ++ x :: skipn (S i) l.

Definition apply_list_event (view : list jsval) (e : list_event) : list jsval :=
  match e with
  | LAdd idx v => insert_at view idx v
  | LRemove idx _ => remove_at view idx
  | LUpdate idx v _ => replace_at view idx v
  | LMove from to v => insert_at (remove_at view from) to v
  | LReset => view
  end.

Definition apply_list_events (view : list jsval) (evs : list list_event) : list jsval :=
  fold_left apply_list_event evs view.

(** The elements [v] of [src], the first at index [i], for which
    [g index v] holds, in order. *)
Fixpoint select (g : nat -> jsval -> bool) (src : list jsval) (i : nat) : list jsval :=
  match src with
  | [] => []
  | v :: rest => if g i v then v :: select g rest (S i) else select g rest (S i)
  end.

(** A predicate evaluated on each element and its index. *)
Fixpoint mapi_from (f : FilteredList.filter_fn) (src : list jsval) (i : nat) : list bool :=
  match src with
  | [] => []
  | v :: rest => f v i :: mapi_from f rest (S i)
  end.

(** What a subscriber of a [FilteredList] holds while the list is
    subscribed: the source itself when there is no mask, otherwise the
    source elements the mask marks. *)
Definition filtered_view (fl : FilteredList.FilteredList) (src : list jsval) : list jsval :=
  match FilteredList._included fl with
  | None => src
  | Some a => select (fun j _ => FilteredList.js_read a j) src 0
  end.

(** ** MappedMap *)

Module MappedMap.

(** [mapper(value, emitSpontaneousUpdate)]: the callback is
    [_emitSpontaneousUpdate] bound to the key, so the mapper is given that
    key.  The updater mutates a mapped value in place and returns nothing;
    values here are not mutable objects, so its calls are not recorded. *)
Definition mapper_fn := jsval -> key -> jsval.

Record MappedMap : Type := mkMappedMap {
  _mapper : mapper_fn;
  _mappedValues : jsmap;
  _subscription : bool
}.

(** [Map.prototype.set]: replace in place, or append a new key. *)
Definition map_set (m : jsmap) (k : key) (v : jsval) : jsmap :=
  if existsb (fun e => String.eqb (fst e) k) m
  then map (fun e => if String.eqb (fst e) k then (k, v) else e) m
  else m ++ [(k, v)].

(** [Map.prototype.delete]: whether the key was there, and the rest. *)
Definition map_delete (m : jsmap) (k : key) : bool * jsmap :=
  (existsb (fun e => String.eqb (fst e) k) m,
   filter (fun e => negb (String.eqb (fst e) k)) m).

Definition _emitSpontaneousUpdate (mm : MappedMap) (k : key) (params : jsval)
  : list map_event :=
  let value := map_get (_mappedValues mm) k in
  if truthy value then [MUpdate k value params] else [].

Definition onAdd (mm : MappedMap) (k : key) (value : jsval) : MappedMap * list map_event :=
  let mappedValue := _mapper mm value k in
  (mkMappedMap (_mapper mm) (map_set (_mappedValues mm) k mappedValue) (_subscription mm),
   [MAdd k mappedValue]).

Definition onRemove (mm : MappedMap) (k : key) : MappedMap * list map_event :=
  let mappedValue := map_get (_mappedValues mm) k in
  let '(deleted, rest) := map_delete (_mappedValues mm) k in
  (mkMappedMap (_mapper mm) rest (_subscription mm),
   if deleted then [MRemove k mappedValue] else []).

(** The guard [!this._mappedValues] never fires: the map is created with
    the object. *)
Definition onUpdate (mm : MappedMap) (k : key) (value params : jsval) : list map_event :=
  let mappedValue := map_get (_mappedValues mm) k in
  if negb (is_undefined mappedValue) then [MUpdate k mappedValue params] else [].

Definition onSubscribeFirst (mm : MappedMap) (src : jsmap) : MappedMap :=
  mkMappedMap (_mapper mm)
    (fold_left (fun c e => map_set c (fst e) (_mapper mm (snd e) (fst e))) src
               (_mappedValues mm))
    true.

Definition onUnsubscribeLast (mm : MappedMap) : MappedMap :=
  mkMappedMap (_mapper mm) [] false.

Definition onReset (mm : MappedMap) : MappedMap * list map_event :=
  (mkMappedMap (_mapper mm) [] (_subscription mm), [MReset]).

Definition iterate (mm : MappedMap) : list (key * jsval) := _mappedValues mm.

Definition size (mm : MappedMap) : nat := List.length (_mappedValues mm).

Definition get (mm : MappedMap) (k : key) : jsval := map_get (_mappedValues mm) k.

(** A change of the source map and the event it delivers. *)
Inductive source_op : Type :=
| OAdd (k : key) (v : jsval)
| ORemove (k : key)
| OUpdate (k : key) (v params : jsval).

(** The source's content after the change. *)
Definition apply_source (src : jsmap) (op : source_op) : jsmap :=
  match op with
  | OAdd k v => src ++ [(k, v)]
  | ORemove k => snd (map_delete src k)
  | OUpdate k v _ => map_set src k v
  end.

(** A change a [Map] can report: adding a new key, removing or updating
    one it has. *)
Definition op_ok (src : jsmap) (op : source_op) : bool :=
  match op with
  | OAdd k _ => negb (existsb (fun e => String.eqb (fst e) k) src)
  | ORemove k | OUpdate k _ _ => existsb (fun e => String.eqb (fst e) k) src
  end.

Definition handle (mm : MappedMap) (op : source_op) : MappedMap :=
  match op with
  | OAdd k v => fst (onAdd mm k v)
  | ORemove k => fst (onRemove mm k)
  | OUpdate k v params => mm
  end.

(** The source's changes delivered one after the other; [None] if one of
    them is not a change the source can report. *)
Fixpoint run (mm : MappedMap) (src : jsmap) (ops : list source_op)
  : option (MappedMap * jsmap) :=
  match ops with
  | [] => Some (mm, src)
  | op :: rest =>
      if op_ok src op then run (handle mm op) (apply_source src op) rest else None
  end.

End MappedMap.

(** ** Clients of a BaseObservable *)

Module ObservableClient.
Import BaseObservable.

(** What a client does: subscribe a handler, call the closure [subscribe]
    returned for a handler, or [unsubscribeAll]. *)
Inductive op : Type :=
| Sub (h : nat)
| Unsub (h : nat)
| UnsubAll.

Definition step (o : BaseObservable) (x : op) : BaseObservable :=
  match x with
  | Sub h => subscribe o h
  | Unsub h => unsubscribe_closure h o
  | UnsubAll => unsubscribeAll o
  end.

Definition run (o : BaseObservable) (ops : list op) : BaseObservable :=
  fold_left step ops o.

(** A client that subscribes only handlers not yet subscribed and calls
    only the closures of handlers still subscribed. *)
Fixpoint disciplined (o : BaseObservable) (ops : list op) : bool :=
  match ops with
  | [] => true
  | x :: rest =>
      match x with
      | Sub h => negb (existsb (Nat.eqb h) (_handlers o))
      | Unsub h => existsb (Nat.eqb h) (_handlers o)
      | UnsubAll => true
      end && disciplined (step o x) rest
  end.

(** [n] complete first-subscribe / last-unsubscribe pairs, then a pending
    first-subscribe if handlers remain. *)
Definition bracketed (o : BaseObservable) : Prop :=
  exists n, hook_log o = List.concat (repeat [SubscribeFirst; UnsubscribeLast] n)
                         ++ (if hasSubscriptions o then [SubscribeFirst] else []).

(** An [ApplyMap] with the [BaseObservable] state of its own handlers:
    where [BaseObservable] calls a hook, the map's override runs. *)
Definition subscribe_map (own : BaseObservable) (am : ApplyMap.ApplyMap) (h : nat)
  : BaseObservable * ApplyMap.ApplyMap :=
  let own' := subscribe own h in
  if Nat.ltb (List.length (hook_log own)) (List.length (hook_log own'))
  then (own', fst (ApplyMap.onSubscribeFirst am))
  else (own', am).

Definition unsubscribe_map (own : BaseObservable) (am : ApplyMap.ApplyMap) (h : nat)
  : option (BaseObservable * ApplyMap.ApplyMap) :=
  let own' := unsubscribe_closure h own in
  if Nat.ltb (List.length (hook_log own)) (List.length (hook_log own'))
  then option_map (fun am' => (own', am')) (ApplyMap.onUnsubscribeLast am)
  else Some (own', am).

End ObservableClient.

(** * Proofs *)

(** ** BaseObservable *)

(** C5 (code_bug): calling the closure returned by [subscribe] twice runs
    [onUnsubscribeLast] a second time; the [handler = null] assignment
    only clears the parameter of [unsubscribe]. *)
Theorem BaseObservable_double_unsubscribe_reruns_hook :
  let o := BaseObservable.subscribe BaseObservable.empty 1 in
  let o1 := BaseObservable.unsubscribe_closure 1 o in
  let o2 := BaseObservable.unsubscribe_closure 1 o1 in
  BaseObservable.hook_log o1 = [BaseObservable.SubscribeFirst; BaseObservable.UnsubscribeLast]
  /\ BaseObservable.hook_log o2 =
       [BaseObservable.SubscribeFirst; BaseObservable.UnsubscribeLast;
        BaseObservable.UnsubscribeLast].
Proof. split; reflexivity. Qed.

(** ** findAndUpdateInArray *)

Lemma findIndex_cases (p : jsval -> bool) (l : list jsval) :
  (FindAndUpdate.findIndex p l = -1 /\ existsb p l = false)%Z \/
  exists i x, FindAndUpdate.findIndex p l = Z.of_nat i /\ nth_error l i = Some x
    /\ p x = true /\ forall j y, (j < i)%nat -> nth_error l j = Some y -> p y = false.
Proof.
  induction l as [|a l IH]; simpl.
  - left; auto.
  - destruct (p a) eqn:Ha.
    + right; exists 0%nat, a; repeat split; auto; intros j y Hj; lia.
    + destruct IH as [[H1 H2]|(i & x & H1 & H2 & H3 & H4)].
      * left; rewrite H1; auto.
      * right; exists (S i), x; rewrite H1; repeat split; auto.
        -- destruct (Z.ltb_spec (Z.of_nat i) 0); lia.
        -- intros [|j] y Hj Hy; simpl in Hy.
           ++ congruence.
           ++ apply (H4 j); auto; lia.
Qed.

(** C7: [findAndUpdateInArray] finds exactly when some element satisfies
    the predicate; then the updater runs once, on the first such element,
    and one update event at that index carries its payload unless the
    payload is [false]; otherwise nothing runs and nothing is emitted. *)
Theorem findAndUpdateInArray_contract (predicate : jsval -> bool) (array : list jsval)
    (updater : jsval -> jsval) :
  let out := FindAndUpdate.findAndUpdateInArray predicate array updater in
  (existsb predicate array = false /\ out = FindAndUpdate.mkOutcome false [] [])
  \/ (exists i x,
        existsb predicate array = true
        /\ nth_error array i = Some x /\ predicate x = true
        /\ (forall j y, (j < i)%nat -> nth_error array j = Some y -> predicate y = false)
        /\ out = FindAndUpdate.mkOutcome true [x]
                   (if jsval_eqb (updater x) (JBool false) then []
                    else [LUpdate i x (updater x)])).
Proof.
  unfold FindAndUpdate.findAndUpdateInArray; simpl.
  destruct (findIndex_cases predicate array) as [[H1 H2]|(i & x & H1 & H2 & H3 & H4)].
  - left; rewrite H1; auto.
  - right; exists i, x; rewrite H1.
    assert (Hne : (Z.of_nat i <> -1)%Z) by lia.
    apply Z.eqb_neq in Hne; rewrite Hne; simpl.
    rewrite Nat2Z.id, (nth_error_nth _ _ _ H2).
    repeat split; auto.
    + apply existsb_exists; exists x; split; auto; eapply nth_error_In; eauto.
    + destruct (jsval_eqb (updater x) (JBool false)); reflexivity.
Qed.

(** ** ApplyMap *)

Lemma NoDup_map_coarser {A B C : Type} (f : A -> B) (g : A -> C) (l : list A) :
  (forall x y, g x = g y -> f x = f y) -> NoDup (map f l) -> NoDup (map g l).
Proof.
  intros Hfg H; induction l as [|a l IH]; simpl in *; constructor.
  - inversion H as [|? ? Hnin Hnd]; subst.
    intro Hin; apply in_map_iff in Hin as (b & Hb & Hbin).
    apply Hnin, in_map_iff; exists b; split; auto.
  - inversion H; auto.
Qed.

Lemma set_add_in (s : list nat) (h : nat) : In h (BaseObservable.set_add s h).
Proof.
  unfold BaseObservable.set_add.
  destruct (existsb (Nat.eqb h) s) eqn:He.
  - apply existsb_exists in He as (x & Hx & Hxe); apply Nat.eqb_eq in Hxe; subst; auto.
  - apply in_or_app; right; left; auto.
Qed.

Lemma subscribe_in (o : BaseObservable.BaseObservable) (h : nat) :
  In h (BaseObservable._handlers (BaseObservable.subscribe o h)).
Proof.
  unfold BaseObservable.subscribe.
  destruct (Nat.eqb _ 1); apply set_add_in.
Qed.

(** C10: the first subscription subscribes the map to its source and then
    calls the apply callback once per source entry, in source order and
    without [params]; with no callback it calls nothing. *)
Theorem ApplyMap_onSubscribeFirst_applies_once (am : ApplyMap.ApplyMap) :
  let '(am', tr) := ApplyMap.onSubscribeFirst am in
  ApplyMap._subscription am' = Some ApplyMap.self
  /\ In ApplyMap.self (BaseObservable._handlers (ApplyMap._source_observable am'))
  /\ tr = ApplyMap.SubscribeSource ::
          match ApplyMap._apply am with
          | Some cb => map (fun '(k, v) => ApplyMap.Apply cb k v None) (ApplyMap._source am)
          | None => []
          end
  /\ (forall cb k v, ApplyMap._apply am = Some cb ->
        NoDup (map fst (ApplyMap._source am)) -> In (k, v) (ApplyMap._source am) ->
        count_occ action_eq_dec tr (ApplyMap.Apply cb k v None) = 1%nat)
  /\ (ApplyMap._apply am = None -> tr = [ApplyMap.SubscribeSource]).
Proof.
  destruct am as [src obs ap sub]; simpl.
  pose proof (subscribe_in obs ApplyMap.self) as Hin.
  repeat split; auto.
  - intros cb k v Hcb Hnd Hkv; inversion Hcb; subst.
    unfold ApplyMap.applyOnce; simpl.
    set (g := fun '(k, v) => ApplyMap.Apply cb k v None).
    change (ApplyMap.Apply cb k v None) with (g (k, v)).
    apply (proj1 (NoDup_count_occ' action_eq_dec (map g src))).
    + apply (NoDup_map_coarser fst g); auto.
      intros [k1 v1] [k2 v2] Heq; simpl in Heq; inversion Heq; reflexivity.
    + apply in_map; auto.
  - intros Hn; subst; reflexivity.
Qed.

(** ** Events delivered before the derived state exists *)




(** ** JoinedMap.get *)

(** C8 (code_bug): [get] skips falsy values.  With a [0] in the first
    source it answers the second source's value, although [iterate] and
    the occlusion checks treat the [0] as the visible value; with only a
    [0] it answers [undefined]. *)
Theorem JoinedMap_get_skips_falsy_values :
  let jm := JoinedMap.mkJoinedMap
              [(0%nat, [("a"%string, JNum 0)]); (1%nat, [("a"%string, JNum 5)])] None in
  JoinedMap.get jm "a"%string = JNum 5
  /\ JoinedMap.first_defined (JoinedMap._sources jm) "a"%string = JNum 0
  /\ JoinedMap.iterate jm = [("a"%string, JNum 0)]
  /\ JoinedMap.get (JoinedMap.mkJoinedMap [(0%nat, [("a"%string, JNum 0)])] None) "a"%string
     = JUndefined.
Proof. repeat split; reflexivity. Qed.

(** ** FilteredList *)

(** C9 (code_bug): with no filter the mask stays [null], and then the
    [length] getter and the iterator dereference it and throw, although
    the source has one element. *)
Theorem FilteredList_no_filter_length_throws :
  let fl := FilteredList.onSubscribeFirst (FilteredList.create None) [JNum 1] in
  FilteredList._included fl = None
  /\ FilteredList.length fl = None
  /\ FilteredList.iterate fl [JNum 1] = None.
Proof. repeat split; reflexivity. Qed.

(** C3 (code_bug): after the source resets from two elements to none, the
    reapplied filter keeps the old mask entries, so [length] reports 2
    while no source element is left. *)
Theorem FilteredList_reset_keeps_stale_mask :
  let P : FilteredList.filter_fn := fun _ _ => true in
  let fl := FilteredList.onSubscribeFirst (FilteredList.create (Some P)) [JNum 1; JNum 2] in
  let fl' := fst (FilteredList.onReset fl []) in
  FilteredList.length fl = Some 2%nat
  /\ FilteredList.length fl' = Some 2%nat
  /\ FilteredList.iterate fl' [] = Some [].
Proof. repeat split; reflexivity. Qed.

(** ** JoinedMap: occlusion *)

Section Occlusion.
Import JoinedMap.

Lemma indexOf_app (l1 l2 : list source) (s : nat) (m : jsmap) :
  ~ In s (map fst l1) -> indexOf (l1 ++ (s, m) :: l2) s = Z.of_nat (List.length l1).
Proof.
  induction l1 as [|[r x] l1 IH]; simpl; intros Hnin.
  - rewrite Nat.eqb_refl; reflexivity.
  - destruct (Nat.eqb_spec r s) as [->|Hne]; [exfalso; auto|].
    rewrite IH by auto.
    destruct (Z.ltb_spec (Z.of_nat (List.length l1)) 0); lia.
Qed.

Lemma first_defined_skip (l1 l : list source) (k : key) :
  Forall (fun src => map_get (snd src) k = JUndefined) l1 ->
  first_defined (l1 ++ l) k = first_defined l k.
Proof.
  induction 1 as [|src l1 Hsrc _ IH]; simpl; auto.
  rewrite Hsrc; simpl; auto.
Qed.

Lemma not_occluded (l1 l2 : list source) (s : nat) (m : jsmap) subs (k : key) :
  ~ In s (map fst l1) ->
  Forall (fun src => map_get (snd src) k = JUndefined) l1 ->
  _isKeyAtSourceOccluded (mkJoinedMap (l1 ++ (s, m) :: l2) subs) s k = false.
Proof.
  intros Hnin Hund; unfold _isKeyAtSourceOccluded; simpl.
  rewrite indexOf_app, Nat2Z.id, firstn_app, Nat.sub_diag, firstn_all; auto.
  simpl; rewrite app_nil_r.
  destruct (existsb (fun src => negb (is_undefined (map_get (snd src) k))) l1) eqn:He; auto.
  apply existsb_exists in He as (src & Hin & Hsrc).
  rewrite Forall_forall in Hund; rewrite (Hund src Hin) in Hsrc; discriminate.
Qed.

Lemma occluded_value (l1 l2 : list source) (s : nat) (m : jsmap) subs (k : key) :
  ~ In s (map fst l1) ->
  _getValueFromOccludedSources (mkJoinedMap (l1 ++ (s, m) :: l2) subs) s k
  = first_defined l2 k.
Proof.
  intros Hnin; unfold _getValueFromOccludedSources; simpl.
  rewrite indexOf_app by auto.
  replace (Z.to_nat (Z.of_nat (List.length l1) + 1)) with (S (List.length l1)) by lia.
  rewrite skipn_app, skipn_all2 by lia.
  replace (S (List.length l1) - List.length l1)%nat with 1%nat by lia; reflexivity.
Qed.

End Occlusion.

(** C1: a key gained or lost by a source that no earlier source holds
    moves the visible value (the first value other than [undefined] across
    the sources) from one value to the next.  The joined map then emits a
    remove of the previously visible value before the add of the newly
    visible one: two events when both are defined, one otherwise. *)
Theorem JoinedMap_occlusion_transitions (l1 l2 : list JoinedMap.source) (s : nat)
    (m_before m_after : jsmap) (subs : option (list nat)) (k : key) (v : jsval) :
  ~ In s (map fst l1) ->
  Forall (fun src => map_get (snd src) k = JUndefined) l1 ->
  v <> JUndefined ->
  let before := l1 ++ (s, m_before) :: l2 in
  let after := l1 ++ (s, m_after) :: l2 in
  let visible srcs := JoinedMap.first_defined srcs k in
  (** the source gains [k] *)
  (map_get m_before k = JUndefined -> map_get m_after k = v ->
     JoinedMap.onAdd (JoinedMap.mkJoinedMap after subs) s k v
     = (if is_undefined (visible before) then [] else [MRemove k (visible before)])
       ++ [MAdd k v]
     /\ visible before = JoinedMap.first_defined l2 k
     /\ visible after = v)
  /\
  (** the source loses [k] *)
  (map_get m_before k = v -> map_get m_after k = JUndefined ->
     JoinedMap.onRemove (JoinedMap.mkJoinedMap after subs) s k v
     = MRemove k v ::
       (if is_undefined (visible after) then [] else [MAdd k (visible after)])
     /\ visible before = v
     /\ visible after = JoinedMap.first_defined l2 k).
Proof.
  intros Hnin Hund Hv before after visible.
  assert (Hvd : is_undefined v = false) by (destruct v; simpl; congruence).
  unfold visible, before, after.
  rewrite !first_defined_skip by auto; simpl.
  split; intros Hb Ha; rewrite Hb, Ha, ?Hvd; simpl.
  - unfold JoinedMap.onAdd.
    rewrite not_occluded, occluded_value by auto; simpl.
    repeat split; auto; destruct (is_undefined (JoinedMap.first_defined l2 k)); reflexivity.
  - unfold JoinedMap.onRemove.
    rewrite not_occluded, occluded_value by auto; simpl.
    repeat split; auto; destruct (is_undefined (JoinedMap.first_defined l2 k)); reflexivity.
Qed.

Lemma JoinedMap_occlusion_transitions_witness :
  JoinedMap.onAdd
    (JoinedMap.mkJoinedMap [(0%nat, [("a"%string, JNum 1)]); (1%nat, [("a"%string, JNum 2)])] None)
    0 "a"%string (JNum 1) = [MRemove "a"%string (JNum 2); MAdd "a"%string (JNum 1)]
  /\ JoinedMap.onRemove
       (JoinedMap.mkJoinedMap [(0%nat, []); (1%nat, [("a"%string, JNum 2)])] None)
       0 "a"%string (JNum 1) = [MRemove "a"%string (JNum 1); MAdd "a"%string (JNum 2)].
Proof.
  destruct (JoinedMap_occlusion_transitions [] [(1%nat, [("a"%string, JNum 2)])] 0
              [] [("a"%string, JNum 1)] None "a"%string (JNum 1)) as [Hadd _];
    [simpl; tauto | constructor | discriminate |].
  destruct (JoinedMap_occlusion_transitions [] [(1%nat, [("a"%string, JNum 2)])] 0
              [("a"%string, JNum 1)] [] None "a"%string (JNum 1)) as [_ Hrem];
    [simpl; tauto | constructor | discriminate |].
  split.
  - destruct (Hadd eq_refl eq_refl) as [H _]; exact H.
  - destruct (Hrem eq_refl eq_refl) as [H _]; exact H.
Defined.

(** ** JoinedMap: iteration *)

Section Iteration.
Import JoinedMap.

Lemma skipn_nth_cons {A : Type} (n : nat) (l : list A) (d : A) :
  (n < List.length l)%nat -> skipn n l = nth n l d :: skipn (S n) l.
Proof.
  revert l; induction n as [|n IH]; intros [|x l] Hn; simpl in *; try lia; auto.
  apply IH; lia.
Qed.

Lemma pull_spec (it : JoinedIterator) (c : list (key * jsval)) :
  (-1 <= _sourceIndex it)%Z ->
  round_post (mkJoinedIterator (it_sources it) (_sourceIndex it) (Some c)
                               (_encounteredKeys it))
             (pull it c).
Proof.
  intros Hidx; destruct it as [srcs idx cur enc]; simpl in *.
  unfold round_post, remaining, loop_measure; simpl.
  destruct c as [|[k v] rest]; simpl.
  - repeat split; auto; lia.
  - destruct (existsb (String.eqb k) enc) eqn:Hk; simpl.
    + repeat split; auto; lia.
    + repeat split; auto.
Qed.

Lemma round_spec (it : JoinedIterator) :
  (-1 <= _sourceIndex it)%Z -> round_post it (round it).
Proof.
  intros Hidx; unfold round.
  destruct it as [srcs idx cur enc] eqn:Hit; simpl in *.
  destruct cur as [c|].
  - apply (pull_spec (mkJoinedIterator srcs idx (Some c) enc) c); auto.
  - destruct (Z.leb_spec (Z.of_nat (List.length srcs)) (idx + 1)) as [Hle|Hlt].
    + unfold round_post, remaining; simpl.
      rewrite !skipn_all2 by lia; simpl.
      repeat split; auto; lia.
    + set (n := Z.to_nat (idx + 1)).
      set (c := nth n srcs []).
      pose proof (pull_spec (mkJoinedIterator srcs (idx + 1) None enc) c) as Hp.
      simpl in Hp; specialize (Hp ltac:(lia)).
      assert (Hsk : skipn n srcs = c :: skipn (S n) srcs)
        by (apply skipn_nth_cons; lia).
      assert (Hn : Z.to_nat (idx + 1 + 1) = S n) by lia.
      assert (Hrem : remaining (mkJoinedIterator srcs idx None enc)
                     = remaining (mkJoinedIterator srcs (idx + 1) (Some c) enc)).
      { unfold remaining; simpl; fold n; rewrite Hn, Hsk; reflexivity. }
      assert (Hmeas : (loop_measure (mkJoinedIterator srcs (idx + 1) (Some c) enc)
                       < loop_measure (mkJoinedIterator srcs idx None enc))%nat).
      { unfold loop_measure; simpl; fold n; rewrite Hn, Hsk; simpl; lia. }
      unfold round_post in *.
      destruct (pull (mkJoinedIterator srcs (idx + 1) None enc) c) as [[[e|]|] it'].
      * simpl in Hp |- *; rewrite Hrem; tauto.
      * simpl in Hp |- *; rewrite Hrem; tauto.
      * simpl in Hp |- *; destruct Hp as (H1 & H2 & H3 & H4 & H5); rewrite Hrem.
        repeat split; auto; eapply Nat.lt_trans; [exact H5 | exact Hmeas].
Qed.

Lemma next_loop_spec (fuel : nat) (it : JoinedIterator) :
  (-1 <= _sourceIndex it)%Z -> (loop_measure it < fuel)%nat ->
  let '(r, it') := next_loop fuel it in
  it_sources it' = it_sources it /\ (-1 <= _sourceIndex it')%Z
  /\ match r with
     | None => first_new (_encounteredKeys it) (remaining it) = None
     | Some e => first_new (_encounteredKeys it) (remaining it) = Some (e, remaining it')
                 /\ _encounteredKeys it' = fst e :: _encounteredKeys it
     end.
Proof.
  revert it; induction fuel as [|fuel IH]; intros it Hidx Hf; [lia|].
  simpl; pose proof (round_spec it Hidx) as Hr.
  destruct (round it) as [[r|] it1]; unfold round_post in Hr.
  - destruct r as [e|]; tauto.
  - destruct Hr as (Hs & Hi & Hfn & He & Hm).
    specialize (IH it1 Hi ltac:(lia)).
    destruct (next_loop fuel it1) as [r it'].
    rewrite Hfn, <- He, <- Hs; exact IH.
Qed.

Lemma first_new_first_occ (seen : list key) (l : list (key * jsval)) :
  match first_new seen l with
  | None => first_occ seen l = []
  | Some (e, rest) => first_occ seen l = e :: first_occ (fst e :: seen) rest
                      /\ (List.length rest < List.length l)%nat
  end.
Proof.
  induction l as [|[k v] l IH]; simpl; auto.
  destruct (existsb (String.eqb k) seen); simpl; auto.
  destruct (first_new seen l) as [[e rest]|]; auto.
  destruct IH as [IH1 IH2]; split; auto; lia.
Qed.

Lemma drain_spec (fuel : nat) (it : JoinedIterator) :
  (-1 <= _sourceIndex it)%Z -> (List.length (remaining it) < fuel)%nat ->
  drain fuel it = first_occ (_encounteredKeys it) (remaining it).
Proof.
  revert it; induction fuel as [|fuel IH]; intros it Hidx Hf; [lia|].
  simpl; unfold next.
  pose proof (next_loop_spec (S (loop_measure it)) it Hidx ltac:(lia)) as Hn.
  pose proof (first_new_first_occ (_encounteredKeys it) (remaining it)) as Hfo.
  destruct (next_loop (S (loop_measure it)) it) as [[e|] it'].
  - destruct Hn as (_ & Hi & Hfn & He).
    rewrite Hfn in Hfo; destruct Hfo as [Hfo Hlen].
    rewrite Hfo, IH, He by (auto; lia); reflexivity.
  - destruct Hn as (_ & _ & Hfn); rewrite Hfn in Hfo; auto.
Qed.

Lemma iterate_first_occ (jm : JoinedMap) :
  iterate jm = first_occ [] (List.concat (map snd (_sources jm))).
Proof.
  unfold iterate; rewrite drain_spec; simpl; auto; lia.
Qed.

End Iteration.

Section FirstOccurrence.

Lemma existsb_key_in (k : key) (seen : list key) :
  existsb (String.eqb k) seen = true <-> In k seen.
Proof.
  rewrite existsb_exists; split.
  - intros (x & Hx & Heq); apply String.eqb_eq in Heq; subst; auto.
  - intros Hin; exists k; split; auto; apply String.eqb_refl.
Qed.

Lemma existsb_key_notin (k : key) (seen : list key) :
  existsb (String.eqb k) seen = false <-> ~ In k seen.
Proof.
  rewrite <- existsb_key_in; destruct (existsb (String.eqb k) seen); intuition congruence.
Qed.

Lemma first_occ_keys_fresh (seen : list key) (l : list (key * jsval)) (k : key) :
  In k (map fst (first_occ seen l)) -> ~ In k seen.
Proof.
  revert seen; induction l as [|[k' v'] l IH]; intros seen; simpl; [tauto|].
  destruct (existsb (String.eqb k') seen) eqn:Hk; auto.
  simpl; intros [<-|Hin].
  - apply existsb_key_notin; auto.
  - intros Hs; apply (IH (k' :: seen) Hin); right; auto.
Qed.

Lemma first_occ_nodup (seen : list key) (l : list (key * jsval)) :
  NoDup (map fst (first_occ seen l)).
Proof.
  revert seen; induction l as [|[k v] l IH]; intros seen; simpl; [constructor|].
  destruct (existsb (String.eqb k) seen); auto.
  simpl; constructor; auto.
  intros Hin; apply (first_occ_keys_fresh _ _ _ Hin); left; auto.
Qed.

Lemma first_occ_subseq (seen : list key) (l : list (key * jsval)) :
  subseq (first_occ seen l) l.
Proof.
  revert seen; induction l as [|[k v] l IH]; intros seen; simpl; [constructor|].
  destruct (existsb (String.eqb k) seen); constructor; auto.
Qed.

Lemma entry_value_cons (k' k : key) (v' : jsval) (l : list (key * jsval)) :
  entry_value ((k', v') :: l) k = if String.eqb k' k then Some v' else entry_value l k.
Proof. unfold entry_value; simpl; destruct (String.eqb k' k); reflexivity. Qed.

Lemma first_occ_in (seen : list key) (l : list (key * jsval)) (k : key) (v : jsval) :
  In (k, v) (first_occ seen l) <-> ~ In k seen /\ entry_value l k = Some v.
Proof.
  revert seen; induction l as [|[k' v'] l IH]; intros seen.
  - simpl; unfold entry_value; simpl; intuition discriminate.
  - rewrite entry_value_cons; simpl.
    destruct (existsb (String.eqb k') seen) eqn:Hk.
    + rewrite IH; apply existsb_key_in in Hk.
      destruct (String.eqb_spec k' k) as [->|Hne]; intuition.
    + apply existsb_key_notin in Hk; simpl; rewrite IH; simpl.
      destruct (String.eqb_spec k' k) as [->|Hne].
      * split.
        -- intros [Heq|(Hn & _)]; [inversion Heq; subst; auto | exfalso; auto].
        -- intros (_ & Hv); inversion Hv; subst; auto.
      * split.
        -- intros [Heq|(Hn & Hv)]; [inversion Heq; congruence | split; auto].
        -- intros (Hn & Hv); right; split; auto; intros [H|H]; auto.
Qed.

Lemma entry_value_none (m : list (key * jsval)) (k : key) :
  entry_value m k = None <-> ~ In k (map fst m).
Proof.
  induction m as [|[k' v'] m IH]; [simpl; unfold entry_value; simpl; tauto|].
  rewrite entry_value_cons; simpl.
  destruct (String.eqb_spec k' k) as [->|Hne]; [intuition discriminate|].
  rewrite IH; intuition.
Qed.

Lemma entry_value_app (m r : list (key * jsval)) (k : key) :
  entry_value (m ++ r) k =
  match entry_value m k with Some v => Some v | None => entry_value r k end.
Proof.
  induction m as [|[k' v'] m IH]; [reflexivity|].
  simpl; rewrite !entry_value_cons; destruct (String.eqb k' k); auto.
Qed.

Lemma entry_value_concat (srcs : list (list (key * jsval))) (k : key) (v : jsval) :
  entry_value (List.concat srcs) k = Some v <->
  exists pre m post, srcs = pre ++ m :: post
    /\ ~ In k (map fst (List.concat pre)) /\ entry_value m k = Some v.
Proof.
  induction srcs as [|m rest IH].
  - simpl; unfold entry_value; simpl; split; [discriminate|].
    intros (pre & m & post & H & _); destruct pre; discriminate.
  - simpl; rewrite entry_value_app.
    destruct (entry_value m k) as [v0|] eqn:Hm; split.
    + intros Hv; exists [], m, rest; simpl; repeat split; auto; congruence.
    + intros ([|p pre] & m' & post & Heq & Hn & Hv); simpl in *.
      * inversion Heq; subst; congruence.
      * inversion Heq; subst.
        exfalso; apply Hn; rewrite map_app; apply in_or_app; left.
        destruct (in_dec string_dec k (map fst p)) as [Hi|Hi]; auto.
        apply entry_value_none in Hi; congruence.
    + intros Hv; apply IH in Hv as (pre & m' & post & Heq & Hn & Hv).
      exists (m :: pre), m', post; subst; split; auto; split; auto.
      simpl; rewrite map_app; intros Hi; apply in_app_or in Hi as [Hi|Hi]; auto.
      apply entry_value_none in Hm; auto.
    + intros ([|p pre] & m' & post & Heq & Hn & Hv); simpl in *.
      * inversion Heq; subst; congruence.
      * inversion Heq; subst; apply IH; exists pre, m', post; split; auto; split; auto.
        rewrite map_app in Hn; intros Hi; apply Hn, in_or_app; auto.
Qed.

End FirstOccurrence.

(** C2: iterating a joined map yields every key at most once, as a
    subsequence of the sources' entries taken in source order, and a key
    comes with its value from the first source that has an entry for it;
    the entries of later sources for that key are never yielded. *)
Theorem JoinedMap_iterate_first_source_wins (jm : JoinedMap.JoinedMap) :
  let srcs := map snd (JoinedMap._sources jm) in
  let out := JoinedMap.iterate jm in
  NoDup (map fst out)
  /\ subseq out (List.concat srcs)
  /\ forall k v, In (k, v) out <->
       exists pre m post, srcs = pre ++ m :: post
         /\ ~ In k (map fst (List.concat pre)) /\ entry_value m k = Some v.
Proof.
  intros srcs out; unfold out; rewrite iterate_first_occ; fold srcs.
  split; [apply first_occ_nodup|split; [apply first_occ_subseq|]].
  intros k v; rewrite first_occ_in, <- entry_value_concat; simpl; tauto.
Qed.

(** ** sortedIndex *)

Section SortedIndexProofs.
Import SortedIndex.
Local Open Scope Z_scope.

Variable array : list jsval.
Variable value : jsval.
Variable cmp : comparator.
Hypothesis cmp_trans : forall x y z, cmp x y <= 0 -> cmp y z <= 0 -> cmp x z <= 0.
Hypothesis cmp_antisym : forall x y, Z.sgn (cmp y x) = - Z.sgn (cmp x y).

Let len := Z.of_nat (List.length array).

Hypothesis sorted :
  forall i j, 0 <= i < j -> j < len -> cmp (at_ array i) (at_ array j) <= 0.
Hypothesis small : len < 2 ^ 31.

Lemma sgn_le0 (z : Z) : z <= 0 <-> Z.sgn z <= 0.
Proof.
  destruct (Z.lt_trichotomy z 0) as [H|[H|H]];
    [rewrite Z.sgn_neg | rewrite Z.sgn_null | rewrite Z.sgn_pos]; auto; lia.
Qed.

Lemma sgn_ge0 (z : Z) : 0 <= z <-> 0 <= Z.sgn z.
Proof.
  destruct (Z.lt_trichotomy z 0) as [H|[H|H]];
    [rewrite Z.sgn_neg | rewrite Z.sgn_null | rewrite Z.sgn_pos]; auto; lia.
Qed.

Lemma flip_le (x y : jsval) : cmp x y <= 0 -> 0 <= cmp y x.
Proof. rewrite sgn_le0, sgn_ge0, cmp_antisym; lia. Qed.

Lemma flip_ge (x y : jsval) : 0 <= cmp x y -> cmp y x <= 0.
Proof. rewrite sgn_le0, sgn_ge0, cmp_antisym; lia. Qed.

Lemma mono_gt (i j : Z) :
  0 <= i < j -> j < len -> 0 < cmp value (at_ array j) -> 0 < cmp value (at_ array i).
Proof.
  intros Hij Hj Hgt.
  destruct (Z.lt_ge_cases 0 (cmp value (at_ array i))) as [H|H]; auto.
  pose proof (cmp_trans _ _ _ H (sorted i j Hij Hj)); lia.
Qed.

Lemma mono_lt (i j : Z) :
  0 <= i < j -> j < len -> cmp value (at_ array i) < 0 -> cmp value (at_ array j) < 0.
Proof.
  intros Hij Hj Hlt.
  destruct (Z.lt_ge_cases (cmp value (at_ array j)) 0) as [H|H]; auto.
  pose proof (flip_le _ _ (cmp_trans _ _ _ (sorted i j Hij Hj) (flip_ge _ _ H))); lia.
Qed.

Lemma mid_of_bounds (low high : Z) :
  0 <= low < high -> high <= len -> low <= mid_of low high < high.
Proof.
  intros Hl Hh; unfold mid_of.
  rewrite Z.mod_small by lia.
  rewrite Z.shiftr_div_pow2 by lia.
  pose proof (Z.div_mod (low + high) (2 ^ 1) ltac:(lia)).
  pose proof (Z.mod_pos_bound (low + high) (2 ^ 1) ltac:(lia)).
  change (2 ^ 1) with 2 in *; lia.
Qed.

Lemma loop_collapsed (fuel : nat) (m : Z) : loop fuel array value cmp m m = m.
Proof. destruct fuel; simpl; [|rewrite Z.ltb_irrefl]; reflexivity. Qed.

Lemma collapse_point (mid : Z) :
  0 <= mid < len -> cmp value (at_ array mid) = 0 -> insertion_point array value cmp mid.
Proof.
  intros Hm Heq; unfold insertion_point; cbv zeta; fold len.
  repeat split; try lia.
  - intros j Hj.
    apply flip_le, (cmp_trans _ (at_ array mid)).
    + apply sorted; lia.
    + apply flip_ge; lia.
  - intros j Hj.
    destruct (Z.eq_dec j mid) as [->|Hne]; [lia|].
    apply (cmp_trans _ (at_ array mid)); [lia|apply sorted; lia].
Qed.

Lemma loop_correct (fuel : nat) (low high : Z) :
  0 <= low <= high -> high <= len -> high - low < Z.of_nat fuel ->
  (forall j, 0 <= j < low -> 0 < cmp value (at_ array j)) ->
  (forall j, high <= j < len -> cmp value (at_ array j) < 0) ->
  insertion_point array value cmp (loop fuel array value cmp low high).
Proof.
  revert low high; induction fuel as [|fuel IH]; intros low high Hlh Hh Hf Hlo Hhi;
    [lia|].
  simpl.
  destruct (Z.ltb_spec low high) as [Hlt|Hge].
  - pose proof (mid_of_bounds low high ltac:(lia) Hh) as Hmid.
    set (mid := mid_of low high) in *.
    destruct (Z.ltb_spec 0 (cmp value (at_ array mid))) as [Hpos|Hnpos].
    + apply IH; [lia|lia|lia| |exact Hhi].
      intros j Hj; destruct (Z.eq_dec j mid) as [->|Hne]; auto.
      apply (mono_gt j mid); lia.
    + destruct (Z.ltb_spec (cmp value (at_ array mid)) 0) as [Hneg|Hnneg].
      * apply IH; [lia|lia|lia|exact Hlo|].
        intros j Hj; destruct (Z.eq_dec j mid) as [->|Hne]; auto.
        apply (mono_lt mid j); lia.
      * rewrite loop_collapsed; apply collapse_point; lia.
  - assert (low = high) as <- by lia.
    unfold insertion_point; cbv zeta; fold len.
    split; [lia|split; [|split]].
    + intros j Hj; specialize (Hlo j Hj); lia.
    + intros j Hj; specialize (Hhi j Hj); lia.
    + intros (j & Hj & Heq); exfalso.
      destruct (Z.lt_ge_cases j low) as [Hjl|Hjl];
        [specialize (Hlo j ltac:(lia)) | specialize (Hhi j ltac:(lia))]; lia.
Qed.

Lemma sortedIndex_insertion_point : insertion_point array value cmp (sortedIndex array value cmp).
Proof.
  unfold sortedIndex; apply loop_correct; fold len; lia.
Qed.

End SortedIndexProofs.

(** C6 (counterexample): in [[1, 1, 1]] the search for [1] stops at the
    first probe, index 1, although index 0 holds an equal element and is
    itself a valid insertion point. *)
Lemma sortedIndex_not_leftmost :
  let a := [JNum 1; JNum 1; JNum 1] in
  SortedIndex.sortedIndex a (JNum 1) SortedIndex.numeric_comparator = 1%Z
  /\ SortedIndex.numeric_comparator (JNum 1) (SortedIndex.at_ a 0) = 0%Z
  /\ insertion_point a (JNum 1) SortedIndex.numeric_comparator 0.
Proof.
  intros a; split; [reflexivity|split; [reflexivity|]].
  unfold insertion_point; cbv zeta; simpl.
  split; [lia|split; [intros j Hj; lia|split]].
  - intros j Hj; unfold SortedIndex.at_, SortedIndex.numeric_comparator.
    destruct (Z.ltb_spec j 0); [lia|].
    assert (Hj' : (Z.to_nat j < 3)%nat) by lia.
    destruct (Z.to_nat j) as [|[|[|n]]]; simpl; lia.
  - intros _; split; [lia|reflexivity].
Qed.

(** C6 (amended): on an array ordered by a comparator that is a total
    preorder, and shorter than 2^31 elements, [sortedIndex] returns an
    index at which [value] can be inserted keeping the array ordered;
    when some element compares equal to [value], the returned index is
    that of such an element (the first one the binary search probes), not
    necessarily the leftmost one. *)
Theorem sortedIndex_returns_insertion_point (array : list jsval) (value : jsval)
    (cmp : SortedIndex.comparator) :
  (forall x y z, cmp x y <= 0 -> cmp y z <= 0 -> cmp x z <= 0)%Z ->
  (forall x y, Z.sgn (cmp y x) = - Z.sgn (cmp x y))%Z ->
  (forall i j, 0 <= i < j -> j < Z.of_nat (List.length array) ->
     cmp (SortedIndex.at_ array i) (SortedIndex.at_ array j) <= 0)%Z ->
  (Z.of_nat (List.length array) < 2 ^ 31)%Z ->
  insertion_point array value cmp (SortedIndex.sortedIndex array value cmp).
Proof. intros Htrans Hanti Hsorted Hsmall; apply sortedIndex_insertion_point; auto. Qed.

Lemma sortedIndex_returns_insertion_point_witness :
  let a := [JNum 1; JNum 3; JNum 5] in
  SortedIndex.sortedIndex a (JNum 4) SortedIndex.numeric_comparator = 2%Z
  /\ insertion_point a (JNum 4) SortedIndex.numeric_comparator
       (SortedIndex.sortedIndex a (JNum 4) SortedIndex.numeric_comparator).
Proof.
  intros a; split; [reflexivity|].
  apply sortedIndex_returns_insertion_point.
  - intros x y z; unfold SortedIndex.numeric_comparator; lia.
  - intros x y; unfold SortedIndex.numeric_comparator.
    rewrite <- Z.sgn_opp; f_equal; lia.
  - intros i j Hij Hj; simpl in Hj.
    assert (Hc : ((i = 0 /\ j = 1) \/ (i = 0 /\ j = 2) \/ (i = 1 /\ j = 2))%Z) by lia.
    destruct Hc as [[-> ->]|[[-> ->]|[-> ->]]]; vm_compute; discriminate.
  - simpl; lia.
Defined.

(** * Further properties of the code *)

(** ** FilteredList and the copies its subscribers keep *)

Section FilteredListViews.
Import FilteredList.

Lemma apply_list_events_app (view : list jsval) (e1 e2 : list list_event) :
  apply_list_events view (e1 ++ e2) = apply_list_events (apply_list_events view e1) e2.
Proof. unfold apply_list_events; apply fold_left_app. Qed.

Lemma insert_at_app (P R : list jsval) (x : jsval) :
  insert_at (P ++ R) (List.length P) x = P ++ x :: R.
Proof. unfold insert_at; induction P as [|y P IH]; simpl in *; [reflexivity|congruence]. Qed.

Lemma remove_at_app (P R : list jsval) (x : jsval) :
  remove_at (P ++ x :: R) (List.length P) = P ++ R.
Proof. unfold remove_at; induction P as [|y P IH]; simpl in *; [reflexivity|congruence]. Qed.

Lemma replace_at_app (P R : list jsval) (x y : jsval) :
  replace_at (P ++ x :: R) (List.length P) y = P ++ y :: R.
Proof. unfold replace_at; induction P as [|z P IH]; simpl in *; [reflexivity|congruence]. Qed.

Lemma js_write_cons (x : bool) (a : list bool) (i : nat) (b : bool) :
  js_write (x :: a) (S i) b = x :: js_write a i b.
Proof. unfold js_write; simpl; destruct (Nat.ltb _ _); reflexivity. Qed.

Lemma js_write_zero (x : bool) (a : list bool) (b : bool) :
  js_write (x :: a) 0 b = b :: a.
Proof. reflexivity. Qed.

Lemma js_read_write_other (a : list bool) (i j : nat) (b : bool) :
  (i <= List.length a)%nat -> j <> i -> js_read (js_write a i b) j = js_read a j.
Proof.
  revert i j; induction a as [|x a IH]; intros i j Hi Hj.
  - simpl in Hi; assert (i = 0%nat) by lia; subst.
    destruct j as [|j]; [lia|]; unfold js_read; simpl; destruct j; reflexivity.
  - destruct i as [|i].
    + rewrite js_write_zero; destruct j as [|j]; [lia|reflexivity].
    + rewrite js_write_cons; destruct j as [|j]; [reflexivity|].
      unfold js_read; simpl; apply IH; simpl in Hi; lia.
Qed.

Lemma js_read_write_same (a : list bool) (i : nat) (b : bool) :
  (i <= List.length a)%nat -> js_read (js_write a i b) i = b.
Proof.
  revert i; induction a as [|x a IH]; intros i Hi.
  - simpl in Hi; assert (i = 0%nat) by lia; subst; reflexivity.
  - destruct i as [|i]; [reflexivity|].
    rewrite js_write_cons; unfold js_read; simpl; apply IH; simpl in Hi; lia.
Qed.

Lemma js_write_length (a : list bool) (i : nat) (b : bool) :
  (i <= List.length a)%nat -> List.length (js_write a i b) = Nat.max (S i) (List.length a).
Proof.
  revert i; induction a as [|x a IH]; intros i Hi.
  - simpl in Hi; assert (i = 0%nat) by lia; subst; reflexivity.
  - destruct i as [|i]; [rewrite js_write_zero; simpl; lia|].
    rewrite js_write_cons; simpl; rewrite IH by (simpl in Hi; lia).
    rewrite Nat.succ_max_distr; reflexivity.
Qed.

Lemma js_write_firstn (a : list bool) (i : nat) (b : bool) :
  (i <= List.length a)%nat -> firstn (S i) (js_write a i b) = firstn i a ++ [b].
Proof.
  revert i; induction a as [|x a IH]; intros i Hi.
  - simpl in Hi; assert (i = 0%nat) by lia; subst; reflexivity.
  - destruct i as [|i]; [reflexivity|].
    rewrite js_write_cons.
    change (x :: firstn (S i) (js_write a i b) = x :: firstn i a ++ [b]).
    rewrite IH by (simpl in Hi; lia); reflexivity.
Qed.

Lemma js_write_skipn (a : list bool) (i n : nat) (b : bool) :
  (i <= List.length a)%nat -> (i < n)%nat -> skipn n (js_write a i b) = skipn n a.
Proof.
  revert i n; induction a as [|x a IH]; intros i n Hi Hn.
  - simpl in Hi; assert (i = 0%nat) by lia; subst.
    destruct n as [|n]; [lia|]; simpl; destruct n; reflexivity.
  - destruct n as [|n]; [lia|].
    destruct i as [|i]; [reflexivity|].
    rewrite js_write_cons; simpl; apply IH; simpl in Hi; lia.
Qed.

Lemma select_ext (g g' : nat -> jsval -> bool) (src : list jsval) (i : nat) :
  (forall j v, (i <= j)%nat -> g j v = g' j v) -> select g src i = select g' src i.
Proof.
  revert i; induction src as [|v src IH]; intros i Hg; simpl; [reflexivity|].
  rewrite Hg by lia; rewrite IH; [reflexivity|].
  intros j w Hj; apply Hg; lia.
Qed.

(** The filtered loop of [_reapplyFilter] turns a subscriber's copy into
    the elements that pass the filter, whatever the copy holds, as long as
    it has one element per entry the old mask marks: kept elements are
    rewritten by updates, dropped ones removed, new ones added. *)
Lemma reapply_loop_view (f : filter_fn) (old : option (list bool)) (src : list jsval) :
  forall (i t : nat) (inc : list bool) (P Q : list jsval),
  (i <= List.length inc)%nat -> t = List.length P ->
  List.length Q = List.length
    (select (fun j _ => match old with Some _ => js_read inc j | None => true end) src i) ->
  apply_list_events (P ++ Q) (snd (reapply_loop f old false src i t inc))
  = P ++ select (fun j v => f v j) src i.
Proof.
  induction src as [|v src IH]; intros i t inc P Q Hi Ht HQ; simpl.
  - destruct Q; [reflexivity|discriminate].
  - set (inc' := js_write inc i (f v i)).
    assert (Hsame : select (fun j _ => match old with Some _ => js_read inc j | None => true end)
                           src (S i)
                    = select (fun j _ => match old with Some _ => js_read inc' j | None => true end)
                             src (S i)).
    { apply select_ext; intros j w Hj; destruct old; [|reflexivity].
      unfold inc'; rewrite js_read_write_other by lia; reflexivity. }
    assert (Hi' : (S i <= List.length inc')%nat).
    { unfold inc'; rewrite js_write_length by lia; lia. }
    destruct (reapply_loop f old false src (S i)
                (if f v i then S t else t) inc') as [inc'' evs'] eqn:Hl.
    simpl; rewrite apply_list_events_app.
    simpl in HQ; rewrite Hsame in HQ.
    destruct (match old with Some _ => js_read inc i | None => true end) eqn:Hw;
      destruct (f v i) eqn:Hf; simpl in HQ |- *.
    + (* kept: an update in place *)
      destruct Q as [|q Q]; [discriminate|]; simpl in HQ.
      subst t; rewrite replace_at_app.
      replace (P ++ v :: Q) with ((P ++ [v]) ++ Q) by (rewrite <- app_assoc; reflexivity).
      pose proof (IH (S i) (S (List.length P)) inc' (P ++ [v]) Q Hi') as H.
      rewrite Hl in H; simpl in H; rewrite H by (rewrite ?length_app; simpl; lia).
      rewrite <- app_assoc; reflexivity.
    + (* dropped: a removal *)
      destruct Q as [|q Q]; [discriminate|]; simpl in HQ.
      subst t; rewrite remove_at_app.
      pose proof (IH (S i) (List.length P) inc' P Q Hi' eq_refl) as H.
      rewrite Hl in H; apply H; lia.
    + (* newly included: an addition *)
      subst t; rewrite insert_at_app.
      replace (P ++ v :: Q) with ((P ++ [v]) ++ Q) by (rewrite <- app_assoc; reflexivity).
      pose proof (IH (S i) (S (List.length P)) inc' (P ++ [v]) Q Hi') as H.
      rewrite Hl in H; simpl in H; rewrite H by (rewrite ?length_app; simpl; lia).
      rewrite <- app_assoc; reflexivity.
    + (* still excluded: nothing *)
      pose proof (IH (S i) t inc' P Q Hi' Ht) as H.
      rewrite Hl in H; apply H; lia.
Qed.

(** The mask the filtered loop leaves: the filter's value at every source
    index, followed by whatever the array held beyond the source. *)
Lemma reapply_loop_mask (f : filter_fn) (old : option (list bool)) (silent : bool)
    (src : list jsval) :
  forall (i t : nat) (inc : list bool),
  (i <= List.length inc)%nat ->
  fst (reapply_loop f old silent src i t inc)
  = firstn i inc ++ mapi_from f src i ++ skipn (i + List.length src) inc.
Proof.
  induction src as [|v src IH]; intros i t inc Hi; simpl.
  - rewrite Nat.add_0_r, firstn_skipn; reflexivity.
  - destruct (reapply_loop f old silent src (S i) _ (js_write inc i (f v i)))
      as [inc'' evs'] eqn:Hl.
    simpl.
    pose proof (IH (S i) (if f v i then S t else t) (js_write inc i (f v i))) as H.
    rewrite Hl in H; cbn [fst] in H; rewrite H by (rewrite js_write_length; lia).
    rewrite js_write_firstn, js_write_skipn by lia.
    rewrite <- app_assoc, Nat.add_succ_r; reflexivity.
Qed.

(** The loop without a filter adds back, at their source index, exactly
    the elements the mask had left out. *)
Lemma unfilter_loop_view (a : list bool) (src : list jsval) :
  forall (i : nat) (P : list jsval), i = List.length P ->
  apply_list_events (P ++ select (fun j _ => js_read a j) src i) (unfilter_loop false src i a)
  = P ++ src.
Proof.
  induction src as [|v src IH]; intros i P Hi; simpl; [reflexivity|].
  rewrite apply_list_events_app.
  destruct (js_read a i); simpl.
  - replace (P ++ v :: _) with ((P ++ [v]) ++ select (fun j _ => js_read a j) src (S i))
      by (rewrite <- app_assoc; reflexivity).
    rewrite IH by (rewrite length_app; simpl; lia).
    rewrite <- app_assoc; reflexivity.
  - subst i; rewrite insert_at_app.
    replace (P ++ v :: _) with ((P ++ [v]) ++ select (fun j _ => js_read a j) src (S (List.length P)))
      by (rewrite <- app_assoc; reflexivity).
    rewrite IH by (rewrite length_app; simpl; lia).
    rewrite <- app_assoc; reflexivity.
Qed.

Lemma filter_iter_select (a : list bool) (src : list jsval) (i : nat) :
  filter_iter src (Some a) i = Some (select (fun j _ => js_read a j) src i).
Proof.
  revert i; induction src as [|v src IH]; intros i; simpl; [reflexivity|].
  rewrite IH; simpl; destruct (js_read a i); reflexivity.
Qed.

Lemma select_mapi (f : filter_fn) (src : list jsval) :
  forall (i : nat) (pre tail : list bool), List.length pre = i ->
  select (fun j _ => js_read (pre ++ mapi_from f src i ++ tail) j) src i
  = select (fun j v => f v j) src i.
Proof.
  induction src as [|v src IH]; intros i pre tail Hpre; simpl; [reflexivity|].
  assert (Hr : js_read (pre ++ f v i :: mapi_from f src (S i) ++ tail) i = f v i).
  { unfold js_read; rewrite nth_error_app2 by lia; rewrite Hpre, Nat.sub_diag; reflexivity. }
  rewrite Hr.
  replace (pre ++ f v i :: mapi_from f src (S i) ++ tail)
    with ((pre ++ [f v i]) ++ mapi_from f src (S i) ++ tail)
    by (rewrite <- app_assoc; reflexivity).
  rewrite IH by (rewrite length_app; simpl; lia).
  reflexivity.
Qed.

Lemma select_true (src : list jsval) (i : nat) : select (fun _ _ => true) src i = src.
Proof. revert i; induction src as [|v src IH]; intros i; simpl; [|rewrite IH]; reflexivity. Qed.

Lemma select_mapi0 (f : filter_fn) (src : list jsval) :
  select (fun j _ => js_read (mapi_from f src 0) j) src 0 = select (fun j v => f v j) src 0.
Proof.
  rewrite <- (select_mapi f src 0 [] [] eq_refl); simpl; rewrite app_nil_r; reflexivity.
Qed.

Lemma skipn_repeat_false (n : nat) : skipn n (repeat false n) = [].
Proof. induction n; simpl; auto. Qed.

Lemma select_app (g : nat -> jsval -> bool) (L R : list jsval) (i : nat) :
  select g (L ++ R) i = select g L i ++ select g R (i + List.length L).
Proof.
  revert i; induction L as [|v L IH]; intros i; simpl.
  - rewrite Nat.add_0_r; reflexivity.
  - rewrite IH, Nat.add_succ_r; destruct (g i v); reflexivity.
Qed.

Lemma select_ext_range (g g' : nat -> jsval -> bool) (src : list jsval) (i : nat) :
  (forall j v, (i <= j < i + List.length src)%nat -> g j v = g' j v) ->
  select g src i = select g' src i.
Proof.
  revert i; induction src as [|v src IH]; intros i Hg; simpl; [reflexivity|].
  simpl in Hg; rewrite Hg by lia; rewrite IH; [reflexivity|].
  intros j w Hj; apply Hg; lia.
Qed.

Lemma select_shift (g : nat -> jsval -> bool) (src : list jsval) (i : nat) :
  select (fun j v => g (S j) v) src i = select g src (S i).
Proof.
  revert i; induction src as [|v src IH]; intros i; simpl; [reflexivity|].
  rewrite IH; reflexivity.
Qed.

Lemma count_true_cons (b : bool) (l : list bool) :
  count_true (b :: l) = ((if b then 1 else 0) + count_true l)%nat.
Proof. unfold count_true; simpl; destruct b; reflexivity. Qed.

Lemma count_true_app (l1 l2 : list bool) :
  count_true (l1 ++ l2) = (count_true l1 + count_true l2)%nat.
Proof. unfold count_true; rewrite filter_app, length_app; reflexivity. Qed.

Lemma count_true_split (a : list bool) (i : nat) :
  (i < List.length a)%nat ->
  count_true a = (count_true (firstn i a) + (if js_read a i then 1 else 0)
                  + count_true (skipn (S i) a))%nat.
Proof.
  intros Hi.
  rewrite <- (firstn_skipn i a) at 1.
  rewrite count_true_app, (skipn_nth_cons i a false Hi), count_true_cons.
  unfold js_read; rewrite (nth_error_nth' a false Hi); lia.
Qed.

Lemma map_js_read_seq (a : list bool) (n : nat) :
  forall i, (i + n <= List.length a)%nat -> map (js_read a) (seq i n) = firstn n (skipn i a).
Proof.
  induction n as [|n IH]; intros i Hn; simpl; [reflexivity|].
  rewrite (skipn_nth_cons i a false) by lia; simpl.
  rewrite IH by lia; unfold js_read; rewrite (nth_error_nth' a false) by lia.
  reflexivity.
Qed.

Lemma translateIndex_count (fl : FilteredList) (a : list bool) (idx : nat) :
  _included fl = Some a -> (idx <= List.length a)%nat ->
  _translateIndex fl idx = count_true (firstn idx a).
Proof.
  intros Hinc Hidx; unfold _translateIndex; rewrite Hinc.
  rewrite map_js_read_seq by lia; reflexivity.
Qed.

Lemma select_read_length (a : list bool) (src : list jsval) :
  forall i, List.length (select (fun j _ => js_read a j) src i)
            = count_true (firstn (List.length src) (skipn i a)).
Proof.
  induction src as [|v src IH]; intros i; simpl; [reflexivity|].
  destruct (Nat.lt_ge_cases i (List.length a)) as [Hi|Hi].
  - rewrite (skipn_nth_cons i a false Hi); simpl; rewrite count_true_cons.
    unfold js_read; rewrite (nth_error_nth' a false Hi).
    destruct (nth i a false); simpl; rewrite IH; reflexivity.
  - rewrite skipn_all2 by lia.
    unfold js_read; rewrite (proj2 (nth_error_None a i)) by lia.
    rewrite IH, skipn_all2 by lia; destruct (List.length src); reflexivity.
Qed.

Lemma select_read_length_full (a : list bool) (src : list jsval) :
  List.length a = List.length src ->
  List.length (select (fun j _ => js_read a j) src 0) = count_true a.
Proof.
  intros Hl; rewrite select_read_length; simpl; rewrite firstn_all2 by lia; reflexivity.
Qed.

Lemma count_mapi (f : filter_fn) (src : list jsval) (i : nat) :
  count_true (mapi_from f src i) = List.length (select (fun j v => f v j) src i).
Proof.
  revert i; induction src as [|v src IH]; intros i; simpl; [reflexivity|].
  rewrite count_true_cons, IH; destruct (f v i); reflexivity.
Qed.

Lemma insert_at_length {A : Type} (l : list A) (i : nat) (x : A) :
  List.length (insert_at l i x) = S (List.length l).
Proof.
  unfold insert_at; rewrite length_app; simpl.
  rewrite <- (firstn_skipn i l) at 3; rewrite length_app; lia.
Qed.

Lemma remove_at_length {A : Type} (l : list A) (i : nat) :
  (i < List.length l)%nat -> List.length (remove_at l i) = pred (List.length l).
Proof.
  intros Hi; unfold remove_at; rewrite length_app, length_firstn, length_skipn; lia.
Qed.

Lemma splice_insert_cons (x : bool) (a : list bool) (i : nat) (b : bool) :
  splice_insert (x :: a) (S i) b = x :: splice_insert a i b.
Proof. reflexivity. Qed.

Lemma js_read_splice_insert_lt (a : list bool) (i j : nat) (b : bool) :
  (i <= List.length a)%nat -> (j < i)%nat -> js_read (splice_insert a i b) j = js_read a j.
Proof.
  revert i j; induction a as [|x a IH]; intros i j Hi Hj.
  - simpl in Hi; lia.
  - destruct i as [|i]; [lia|]; rewrite splice_insert_cons.
    destruct j as [|j]; [reflexivity|]; unfold js_read; simpl; apply IH; simpl in Hi; lia.
Qed.

Lemma js_read_splice_insert_ge (a : list bool) (i j : nat) (b : bool) :
  (i <= List.length a)%nat -> (i <= j)%nat ->
  js_read (splice_insert a i b) (S j) = js_read a j.
Proof.
  revert i j; induction a as [|x a IH]; intros i j Hi Hj.
  - simpl in Hi; assert (i = 0%nat) by lia; subst; unfold js_read; simpl.
    destruct j; reflexivity.
  - destruct i as [|i]; [reflexivity|]; rewrite splice_insert_cons.
    destruct j as [|j]; [lia|]; unfold js_read; simpl; apply IH; simpl in Hi; lia.
Qed.

Lemma js_read_splice_insert_at (a : list bool) (i : nat) (b : bool) :
  (i <= List.length a)%nat -> js_read (splice_insert a i b) i = b.
Proof.
  intros Hi; unfold js_read, splice_insert.
  rewrite nth_error_app2 by (rewrite length_firstn; lia).
  rewrite length_firstn, Nat.min_l, Nat.sub_diag by lia; reflexivity.
Qed.

Lemma count_true_splice_insert (a : list bool) (i : nat) (b : bool) :
  count_true (splice_insert a i b) = ((if b then 1 else 0) + count_true a)%nat.
Proof.
  unfold splice_insert; rewrite count_true_app, count_true_cons.
  rewrite <- (firstn_skipn i a) at 3; rewrite count_true_app; lia.
Qed.

Lemma count_true_splice_remove (a : list bool) (i : nat) :
  (i < List.length a)%nat ->
  count_true a = ((if js_read a i then 1 else 0) + count_true (splice_remove a i))%nat.
Proof.
  intros Hi; unfold splice_remove; rewrite count_true_app, (count_true_split a i Hi); lia.
Qed.

Lemma splice_insert_length (a : list bool) (i : nat) (b : bool) :
  List.length (splice_insert a i b) = S (List.length a).
Proof. apply insert_at_length. Qed.

Lemma splice_remove_length (a : list bool) (i : nat) :
  (i < List.length a)%nat -> List.length (splice_remove a i) = pred (List.length a).
Proof. apply remove_at_length. Qed.

Lemma count_firstn_lt (a : list bool) (i : nat) :
  (i < List.length a)%nat -> js_read a i = true -> (count_true (firstn i a) < count_true a)%nat.
Proof. intros Hi Hr; rewrite (count_true_split a i Hi), Hr; lia. Qed.

Lemma firstn_splice_insert (a : list bool) (i : nat) (b : bool) :
  (i <= List.length a)%nat -> firstn i (splice_insert a i b) = firstn i a.
Proof.
  revert i; induction a as [|x a IH]; intros i Hi.
  - simpl in Hi; assert (i = 0%nat) by lia; subst; reflexivity.
  - destruct i as [|i]; [reflexivity|]; rewrite splice_insert_cons; simpl.
    rewrite IH by (simpl in Hi; lia); reflexivity.
Qed.

(** The mask [_reapplyFilter] leaves and the copy its events produce,
    for a mask as long as the source. *)
Lemma reapplyFilter_spec (fl : FilteredList) (p : filter_fn) (a : list bool)
    (src : list jsval) (V : list jsval) :
  _filter fl = Some p -> _included fl = Some a -> List.length a = List.length src ->
  List.length V = count_true a ->
  let '(fl', evs) := _reapplyFilter fl src false in
  _filter fl' = Some p /\ _included fl' = Some (mapi_from p src 0)
  /\ apply_list_events V evs = select (fun j v => p v j) src 0
  /\ filtered_view fl' src = select (fun j v => p v j) src 0.
Proof.
  intros Hf Hinc Hlen HV; unfold _reapplyFilter; rewrite Hf, Hinc.
  destruct (reapply_loop p (Some a) false src 0 0 a) as [inc evs] eqn:Hl.
  pose proof (reapply_loop_view p (Some a) src 0 0 a [] V ltac:(lia) eq_refl) as Hv.
  pose proof (reapply_loop_mask p (Some a) false src 0 0 a ltac:(lia)) as Hm.
  rewrite Hl in Hv, Hm; simpl in Hv, Hm.
  rewrite <- Hlen, skipn_all, app_nil_r in Hm; subst inc.
  unfold filtered_view; simpl.
  split; [reflexivity|split; [reflexivity|split]].
  - apply Hv; rewrite HV, select_read_length_full by lia; reflexivity.
  - apply select_mapi0.
Qed.

End FilteredListViews.

(** [setFilter] on a subscribed list: the events it emits take a
    subscriber's copy from the elements the old mask marked (the whole
    source when there was no mask) to the new filtered view, which is
    what iterating the list then yields. *)
Theorem FilteredList_setFilter_updates_view (fl : FilteredList.FilteredList)
    (f : option FilteredList.filter_fn) (src : list jsval) :
  FilteredList._subscription fl = true ->
  let '(fl', evs) := FilteredList.setFilter fl f src in
  apply_list_events (filtered_view fl src) evs = filtered_view fl' src
  /\ filtered_view fl' src = match f with
                              | Some p => select (fun j v => p v j) src 0
                              | None => src
                              end
  /\ FilteredList._included fl' =
     match f with
     | Some p => Some (mapi_from p src 0 ++
                       skipn (List.length src)
                             (match FilteredList._included fl with Some a => a | None => [] end))
     | None => None
     end.
Proof.
  intros Hsub; unfold FilteredList.setFilter; rewrite Hsub; simpl.
  unfold FilteredList._reapplyFilter; simpl.
  destruct f as [p|].
  - destruct (FilteredList.reapply_loop p (FilteredList._included fl) false src 0 0
                (match FilteredList._included fl with
                 | Some a => a | None => repeat false (List.length src) end))
      as [inc evs] eqn:Hl.
    pose proof (reapply_loop_view p (FilteredList._included fl) src 0 0
                  (match FilteredList._included fl with
                   | Some a => a | None => repeat false (List.length src) end) []
                  _ ltac:(lia) eq_refl eq_refl) as Hv.
    pose proof (reapply_loop_mask p (FilteredList._included fl) false src 0 0
                  (match FilteredList._included fl with
                   | Some a => a | None => repeat false (List.length src) end)
                  ltac:(lia)) as Hm.
    rewrite Hl in Hv, Hm; simpl in Hv, Hm.
    assert (Hsel : select (fun j _ => FilteredList.js_read inc j) src 0
                   = select (fun j v => p v j) src 0).
    { rewrite Hm; apply (select_mapi p src 0 []); reflexivity. }
    unfold filtered_view; simpl.
    split; [|split].
    + rewrite Hsel, <- Hv.
      destruct (FilteredList._included fl); [reflexivity|].
      rewrite select_true; reflexivity.
    + exact Hsel.
    + rewrite Hm; destruct (FilteredList._included fl); [reflexivity|].
      rewrite skipn_repeat_false, skipn_nil; reflexivity.
  - unfold filtered_view; destruct (FilteredList._included fl) as [a|] eqn:Hinc; simpl.
    + split; [|split; reflexivity].
      apply (unfilter_loop_view a src 0 []); reflexivity.
    + split; [|split]; reflexivity.
Qed.

(** The first subscription builds the mask silently: the filter's value
    at every source index, so that iteration yields exactly the source
    elements that pass the filter and [length] counts them. *)
Theorem FilteredList_first_subscription_builds_mask (fl : FilteredList.FilteredList)
    (p : FilteredList.filter_fn) (src : list jsval) :
  FilteredList._filter fl = Some p -> FilteredList._included fl = None ->
  let fl' := FilteredList.onSubscribeFirst fl src in
  FilteredList._subscription fl' = true
  /\ FilteredList._included fl' = Some (mapi_from p src 0)
  /\ FilteredList.iterate fl' src = Some (select (fun j v => p v j) src 0)
  /\ FilteredList.length fl' = Some (List.length (select (fun j v => p v j) src 0)).
Proof.
  intros Hf Hinc; unfold FilteredList.onSubscribeFirst, FilteredList._reapplyFilter; simpl.
  rewrite Hf, Hinc.
  destruct (FilteredList.reapply_loop p None true src 0 0 (repeat false (List.length src)))
    as [inc evs] eqn:Hl.
  pose proof (reapply_loop_mask p None true src 0 0 (repeat false (List.length src))
                ltac:(lia)) as Hm.
  rewrite Hl in Hm; simpl in Hm; rewrite skipn_repeat_false, app_nil_r in Hm; subst inc.
  unfold FilteredList.iterate, FilteredList.length; simpl.
  split; [reflexivity|split; [reflexivity|split]].
  - rewrite filter_iter_select, select_mapi0; reflexivity.
  - rewrite count_mapi; reflexivity.
Qed.

(** [onUpdate] with a mask: the mask entry of the updated index is
    re-evaluated for the new value, and the single event emitted (remove,
    add, update or none) takes a subscriber's copy to the elements the new
    mask marks in the updated source. *)
Theorem FilteredList_onUpdate_updates_view (fl : FilteredList.FilteredList)
    (p : FilteredList.filter_fn) (a : list bool) (src : list jsval) (idx : nat)
    (v params : jsval) :
  FilteredList._filter fl = Some p -> FilteredList._included fl = Some a ->
  (idx < List.length src)%nat -> (idx < List.length a)%nat ->
  match FilteredList.onUpdate fl idx v params with
  | Some (fl', evs) =>
      FilteredList._included fl' = Some (replace_at a idx (p v idx))
      /\ apply_list_events (filtered_view fl src) evs = filtered_view fl' (replace_at src idx v)
  | None => False
  end.
Proof.
  intros Hf Hinc Hs Ha; unfold FilteredList.onUpdate; rewrite Hinc, Hf.
  set (a' := FilteredList.js_write a idx (p v idx)).
  assert (Ha' : a' = replace_at a idx (p v idx)).
  { unfold a', FilteredList.js_write, replace_at.
    destruct (Nat.ltb_spec idx (List.length a)); [reflexivity|lia]. }
  split; [rewrite Ha'; reflexivity|].
  set (fl1 := FilteredList.mkFilteredList (Some p) (Some a')
                                          (FilteredList._subscription fl)).
  set (L := firstn idx src); set (R := skipn (S idx) src); set (x := nth idx src JUndefined).
  assert (HL : List.length L = idx) by (unfold L; rewrite length_firstn; lia).
  assert (Hsrc : src = L ++ x :: R).
  { unfold L, x, R; rewrite <- (skipn_nth_cons idx src JUndefined Hs), firstn_skipn; reflexivity. }
  assert (Hrep : replace_at src idx v = L ++ v :: R) by reflexivity.
  set (ra := fun j (_ : jsval) => FilteredList.js_read a j).
  set (ra' := fun j (_ : jsval) => FilteredList.js_read a' j).
  assert (HVL : select ra' L 0 = select ra L 0).
  { apply select_ext_range; intros j w Hj; unfold ra, ra', a'.
    apply js_read_write_other; lia. }
  assert (HVR : select ra' R (S idx) = select ra R (S idx)).
  { apply select_ext; intros j w Hj; unfold ra, ra', a'.
    apply js_read_write_other; lia. }
  assert (Ht : FilteredList._translateIndex fl1 idx = List.length (select ra L 0)).
  { rewrite (translateIndex_count fl1 a') by
      (try reflexivity; unfold a'; rewrite js_write_length by lia; lia).
    rewrite <- HVL; unfold ra'; rewrite select_read_length, HL; reflexivity. }
  unfold filtered_view; rewrite Hinc; simpl.
  change (FilteredList.js_write a idx (p v idx)) with a'.
  rewrite Hrep, Ht; rewrite Hsrc at 1.
  fold ra; fold ra'; rewrite !select_app, HL; simpl.
  rewrite HVL, HVR.
  assert (Hnew : ra' idx v = p v idx)
    by (unfold ra', a'; apply js_read_write_same; lia).
  rewrite Hnew; unfold ra at 2.
  destruct (FilteredList.js_read a idx); destruct (p v idx); simpl.
  - apply replace_at_app.
  - apply remove_at_app.
  - apply insert_at_app.
  - reflexivity.
Qed.

(** [onRemove] with a mask, for a mask as long as the source: the events
    emitted (the removal, if the element was shown, then those of the
    re-applied filter) take a subscriber's copy to the elements of the new
    source that pass the filter, and the mask is rebuilt for the new
    indices, index-dependent filters included. *)
Theorem FilteredList_onRemove_updates_view (fl : FilteredList.FilteredList)
    (p : FilteredList.filter_fn) (a : list bool) (src : list jsval) (idx : nat)
    (value : jsval) :
  FilteredList._filter fl = Some p -> FilteredList._included fl = Some a ->
  (idx < List.length src)%nat -> List.length a = List.length src ->
  match FilteredList.onRemove fl (remove_at src idx) idx value with
  | Some (fl', evs) =>
      FilteredList._included fl' = Some (mapi_from p (remove_at src idx) 0)
      /\ apply_list_events (filtered_view fl src) evs = filtered_view fl' (remove_at src idx)
      /\ filtered_view fl' (remove_at src idx) = select (fun j v => p v j) (remove_at src idx) 0
  | None => False
  end.
Proof.
  intros Hf Hinc Hs Hlen; unfold FilteredList.onRemove; rewrite Hf, Hinc; simpl.
  rewrite (translateIndex_count fl a idx Hinc) by lia.
  set (a1 := FilteredList.splice_remove a idx).
  set (fl1 := FilteredList.mkFilteredList (Some p) (Some a1) (FilteredList._subscription fl)).
  set (V := filtered_view fl src).
  assert (HV : List.length V = FilteredList.count_true a).
  { unfold V, filtered_view; rewrite Hinc; apply select_read_length_full; exact Hlen. }
  set (ev := if FilteredList.js_read a idx
             then [LRemove (FilteredList.count_true (firstn idx a)) value] else []).
  assert (HV1 : List.length (apply_list_events V ev) = FilteredList.count_true a1).
  { pose proof (count_true_splice_remove a idx ltac:(lia)) as Hc; fold a1 in Hc.
    unfold ev; destruct (FilteredList.js_read a idx) eqn:Hr; simpl.
    - pose proof (count_firstn_lt a idx ltac:(lia) Hr).
      rewrite remove_at_length by lia; lia.
    - lia. }
  assert (Hlen1 : List.length a1 = List.length (remove_at src idx)).
  { unfold a1; rewrite splice_remove_length, remove_at_length; lia. }
  pose proof (reapplyFilter_spec fl1 p a1 (remove_at src idx) (apply_list_events V ev)
                eq_refl eq_refl Hlen1 HV1) as Hr.
  destruct (FilteredList._reapplyFilter fl1 (remove_at src idx) false) as [fl' evs] eqn:Hre.
  destruct Hr as (_ & Hm & Hv & Hfv).
  fold ev; split; [exact Hm|split; [|exact Hfv]].
  rewrite apply_list_events_app; fold V; rewrite Hv, Hfv; reflexivity.
Qed.

(** [onAdd] with a mask, for a mask as long as the source: the events
    emitted take a subscriber's copy to the elements the new mask marks in
    the new source; when the added element passes the filter, the filter
    is re-applied and these are the elements of the new source that pass
    it. *)
Theorem FilteredList_onAdd_updates_view (fl : FilteredList.FilteredList)
    (p : FilteredList.filter_fn) (a : list bool) (src : list jsval) (idx : nat)
    (value : jsval) :
  FilteredList._filter fl = Some p -> FilteredList._included fl = Some a ->
  (idx <= List.length src)%nat -> List.length a = List.length src ->
  let src' := insert_at src idx value in
  let '(fl', evs) := FilteredList.onAdd fl src' idx value in
  apply_list_events (filtered_view fl src) evs = filtered_view fl' src'
  /\ (p value idx = true -> filtered_view fl' src' = select (fun j v => p v j) src' 0).
Proof.
  intros Hf Hinc Hs Hlen src'; unfold FilteredList.onAdd; rewrite Hf, Hinc; simpl.
  set (V := filtered_view fl src).
  assert (HV : List.length V = FilteredList.count_true a).
  { unfold V, filtered_view; rewrite Hinc; apply select_read_length_full; exact Hlen. }
  destruct (p value idx) eqn:Hp; simpl.
  - set (a1 := FilteredList.splice_insert a idx true).
    set (fl1 := FilteredList.mkFilteredList (Some p) (Some a1) (FilteredList._subscription fl)).
    rewrite (translateIndex_count fl1 a1 idx eq_refl)
      by (unfold a1; rewrite splice_insert_length; lia).
    unfold a1 at 1; rewrite firstn_splice_insert by lia.
    set (V1 := apply_list_event V (LAdd (FilteredList.count_true (firstn idx a)) value)).
    assert (HV1 : List.length V1 = FilteredList.count_true a1).
    { unfold V1, a1; simpl; rewrite insert_at_length, count_true_splice_insert; lia. }
    assert (Hlen1 : List.length a1 = List.length src').
    { unfold a1, src'; rewrite splice_insert_length, insert_at_length; lia. }
    pose proof (reapplyFilter_spec fl1 p a1 src' V1 eq_refl eq_refl Hlen1 HV1) as Hr.
    destruct (FilteredList._reapplyFilter fl1 src' false) as [fl' evs] eqn:Hre.
    destruct Hr as (_ & _ & Hv & Hfv).
    split; [|intros _; exact Hfv].
    change (apply_list_events V1 evs = filtered_view fl' src').
    rewrite Hv, Hfv; reflexivity.
  - split; [|discriminate].
    set (a1 := FilteredList.splice_insert a idx false).
    unfold V, filtered_view; simpl; rewrite Hinc.
    set (L := firstn idx src); set (R := skipn idx src).
    assert (HL : List.length L = idx) by (unfold L; rewrite length_firstn; lia).
    change src' with (L ++ value :: R).
    rewrite <- (firstn_skipn idx src) at 1; fold L R.
    rewrite !select_app, HL; simpl.
    unfold a1; rewrite js_read_splice_insert_at by lia.
    f_equal.
    + apply select_ext_range; intros j w Hj.
      symmetry; apply js_read_splice_insert_lt; lia.
    + rewrite <- select_shift; apply select_ext; intros j w Hj.
      symmetry; apply js_read_splice_insert_ge; lia.
Qed.

(** [onMove] with a mask, for a mask as long as the source: whatever
    position the first event names, the events of the re-applied filter
    that follow leave a subscriber's copy equal to the elements of the new
    source that pass the filter. *)
Theorem FilteredList_onMove_updates_view (fl : FilteredList.FilteredList)
    (p : FilteredList.filter_fn) (a : list bool) (src : list jsval) (from to : nat)
    (value : jsval) :
  FilteredList._filter fl = Some p -> FilteredList._included fl = Some a ->
  (from < List.length src)%nat -> (to < List.length src)%nat ->
  List.length a = List.length src ->
  let src' := insert_at (remove_at src from) to value in
  match FilteredList.onMove fl src' from to value with
  | Some (fl', evs) =>
      FilteredList._included fl' = Some (mapi_from p src' 0)
      /\ apply_list_events (filtered_view fl src) evs = filtered_view fl' src'
      /\ filtered_view fl' src' = select (fun j v => p v j) src' 0
  | None => False
  end.
Proof.
  intros Hf Hinc Hfrom Hto Hlen src'; unfold FilteredList.onMove; rewrite Hinc, Hf; simpl.
  rewrite !(translateIndex_count fl a _ Hinc) by lia.
  set (a1 := FilteredList.splice_insert (FilteredList.splice_remove a from) to (p value to)).
  set (fl1 := FilteredList.mkFilteredList (Some p) (Some a1) (FilteredList._subscription fl)).
  set (V := filtered_view fl src).
  assert (HV : List.length V = FilteredList.count_true a).
  { unfold V, filtered_view; rewrite Hinc; apply select_read_length_full; exact Hlen. }
  set (tfrom := FilteredList.count_true (firstn from a)).
  set (tto := FilteredList.count_true (firstn to a)).
  set (ev := if FilteredList.js_read a from && p value to then [LMove tfrom tto value]
             else if FilteredList.js_read a from && negb (p value to) then [LRemove tfrom value]
             else if negb (FilteredList.js_read a from) && p value to then [LAdd tto value]
             else []).
  assert (HV1 : List.length (apply_list_events V ev) = FilteredList.count_true a1).
  { pose proof (count_true_splice_remove a from ltac:(lia)) as Hc.
    unfold a1; rewrite count_true_splice_insert.
    unfold ev; destruct (FilteredList.js_read a from) eqn:Hr; destruct (p value to); simpl.
    - pose proof (count_firstn_lt a from ltac:(lia) Hr).
      rewrite insert_at_length, remove_at_length by (unfold tfrom; lia); lia.
    - pose proof (count_firstn_lt a from ltac:(lia) Hr).
      rewrite remove_at_length by (unfold tfrom; lia); lia.
    - rewrite insert_at_length; lia.
    - lia. }
  assert (Hlen1 : List.length a1 = List.length src').
  { unfold a1, src'; rewrite splice_insert_length, insert_at_length,
      splice_remove_length, remove_at_length; lia. }
  pose proof (reapplyFilter_spec fl1 p a1 src' (apply_list_events V ev)
                eq_refl eq_refl Hlen1 HV1) as Hr.
  destruct (FilteredList._reapplyFilter fl1 src' false) as [fl' evs] eqn:Hre.
  destruct Hr as (_ & Hm & Hv & Hfv).
  fold ev; split; [exact Hm|split; [|exact Hfv]].
  rewrite apply_list_events_app; fold V; rewrite Hv, Hfv; reflexivity.
Qed.

(** ** BaseObservable and its clients *)

Section ObservableClients.
Import BaseObservable ObservableClient.

Lemma repeat_pair_snoc (n : nat) :
  List.concat (repeat [SubscribeFirst; UnsubscribeLast] n) ++ [SubscribeFirst; UnsubscribeLast]
  = List.concat (repeat [SubscribeFirst; UnsubscribeLast] (S n)).
Proof. induction n as [|n IH]; [reflexivity|]; simpl in *; rewrite IH; reflexivity. Qed.

Lemma set_add_fresh (s : list nat) (h : nat) :
  existsb (Nat.eqb h) s = false -> set_add s h = s ++ [h].
Proof. unfold set_add; intros H; rewrite H; reflexivity. Qed.

Lemma set_delete_empty (s : list nat) (h : nat) :
  Nat.eqb (List.length (set_delete s h)) 0 = forallb (Nat.eqb h) s.
Proof.
  induction s as [|x s IH]; [reflexivity|]; unfold set_delete in *; simpl.
  rewrite (Nat.eqb_sym h x); destruct (Nat.eqb x h); simpl; auto.
Qed.

Lemma set_delete_notin (s : list nat) (h : nat) : ~ In h (set_delete s h).
Proof.
  unfold set_delete; rewrite filter_In; intros [_ H].
  rewrite Nat.eqb_refl in H; discriminate.
Qed.

Lemma ltb_snoc {A : Type} (l : list A) (x : A) :
  Nat.ltb (List.length l) (List.length (l ++ [x])) = true.
Proof. rewrite length_app; apply Nat.ltb_lt; simpl; lia. Qed.

Lemma bracketed_step (o : BaseObservable) (x : op) :
  bracketed o ->
  match x with
  | Sub h => negb (existsb (Nat.eqb h) (_handlers o))
  | Unsub h => existsb (Nat.eqb h) (_handlers o)
  | UnsubAll => true
  end = true ->
  bracketed (step o x).
Proof.
  intros [n Hn] Hx; destruct o as [s log]; unfold hasSubscriptions in Hn; simpl in *.
  destruct x as [h|h|]; simpl.
  - apply negb_true_iff in Hx.
    unfold subscribe; simpl; rewrite set_add_fresh by exact Hx.
    destruct s as [|y s]; simpl in *.
    + exists n; unfold hasSubscriptions; simpl; rewrite Hn, app_nil_r; reflexivity.
    + rewrite length_app; simpl.
      destruct (Nat.eqb_spec (List.length s + 1) 0) as [E|_]; [lia|].
      exists n; exact Hn.
  - unfold unsubscribe_closure, unsubscribe; simpl.
    destruct s as [|y s]; [discriminate|]; simpl in Hn.
    destruct (Nat.eqb (List.length (set_delete (y :: s) h)) 0) eqn:He.
    + exists (S n); unfold hasSubscriptions, onUnsubscribeLast; cbn [_handlers hook_log].
      rewrite He, Hn; simpl; rewrite ?app_nil_r, <- app_assoc; exact (repeat_pair_snoc n).
    + exists n; unfold hasSubscriptions; cbn [_handlers hook_log]; rewrite He; exact Hn.
  - unfold unsubscribeAll; simpl.
    destruct s as [|y s]; simpl in *.
    + exists n; exact Hn.
    + exists (S n); unfold hasSubscriptions; simpl; rewrite Hn.
      rewrite ?app_nil_r, <- app_assoc; exact (repeat_pair_snoc n).
Qed.

Lemma bracketed_run (ops : list op) :
  forall o, bracketed o -> disciplined o ops = true -> bracketed (run o ops).
Proof.
  induction ops as [|x ops IH]; intros o Ho Hd; [exact Ho|].
  simpl in Hd; apply andb_true_iff in Hd as [Hx Hd].
  apply (IH (step o x)); [apply bracketed_step|]; assumption.
Qed.

End ObservableClients.

(** A client that subscribes only new handlers and calls only the
    closures of subscribed handlers sees the hooks bracket properly:
    [onSubscribeFirst] and [onUnsubscribeLast] alternate, starting with
    the first, and the last one run is [onSubscribeFirst] exactly when
    handlers remain. *)
Theorem BaseObservable_disciplined_clients_alternate_hooks (ops : list ObservableClient.op) :
  ObservableClient.disciplined BaseObservable.empty ops = true ->
  ObservableClient.bracketed (ObservableClient.run BaseObservable.empty ops).
Proof.
  intros Hd; apply bracketed_run; [|exact Hd].
  exists 0%nat; reflexivity.
Qed.

(** [subscribe] runs [onSubscribeFirst] when the handler set had no
    handler, and also when its only handler is the one subscribed again. *)
Theorem BaseObservable_subscribe_hook (o : BaseObservable.BaseObservable) (h : nat) :
  BaseObservable.hook_log (BaseObservable.subscribe o h)
  = BaseObservable.hook_log o ++
    match BaseObservable._handlers o with
    | [] => [BaseObservable.SubscribeFirst]
    | [h'] => if Nat.eqb h' h then [BaseObservable.SubscribeFirst] else []
    | _ => []
    end
  /\ In h (BaseObservable._handlers (BaseObservable.subscribe o h)).
Proof.
  split; [|apply subscribe_in].
  destruct o as [s log]; unfold BaseObservable.subscribe, BaseObservable.set_add; simpl.
  destruct s as [|x [|y s]]; simpl.
  - reflexivity.
  - destruct (Nat.eqb_spec h x) as [->|Hne]; simpl; [rewrite Nat.eqb_refl; reflexivity|].
    rewrite (proj2 (Nat.eqb_neq x h)) by congruence; rewrite app_nil_r; reflexivity.
  - destruct (Nat.eqb h x || (Nat.eqb h y || existsb (Nat.eqb h) s)); simpl;
      rewrite app_nil_r; reflexivity.
Qed.

(** [unsubscribe(handler)] runs [onUnsubscribeLast] whenever no other
    handler remains, also when [handler] was not subscribed; the handler
    is gone afterwards; [unsubscribe(null)] changes nothing. *)
Theorem BaseObservable_unsubscribe_hook (o : BaseObservable.BaseObservable) (h : nat) :
  BaseObservable.hook_log (BaseObservable.unsubscribe o (Some h))
  = BaseObservable.hook_log o ++
    (if forallb (Nat.eqb h) (BaseObservable._handlers o)
     then [BaseObservable.UnsubscribeLast] else [])
  /\ ~ In h (BaseObservable._handlers (BaseObservable.unsubscribe o (Some h)))
  /\ BaseObservable.unsubscribe o None = o.
Proof.
  destruct o as [s log]; unfold BaseObservable.unsubscribe; simpl.
  rewrite set_delete_empty.
  destruct (forallb (Nat.eqb h) s); simpl; rewrite ?app_nil_r;
    (split; [reflexivity|split; [apply set_delete_notin|reflexivity]]).
Qed.

(** [unsubscribeAll] empties the handler set and runs [onUnsubscribeLast]
    once if there were handlers; a second call does nothing. *)
Theorem BaseObservable_unsubscribeAll_idempotent (o : BaseObservable.BaseObservable) :
  BaseObservable._handlers (BaseObservable.unsubscribeAll o) = []
  /\ BaseObservable.hook_log (BaseObservable.unsubscribeAll o)
     = BaseObservable.hook_log o ++
       (if BaseObservable.hasSubscriptions o then [BaseObservable.UnsubscribeLast] else [])
  /\ BaseObservable.hasSubscriptions (BaseObservable.unsubscribeAll o) = false
  /\ BaseObservable.unsubscribeAll (BaseObservable.unsubscribeAll o)
     = BaseObservable.unsubscribeAll o.
Proof.
  destruct o as [[|x s] log]; unfold BaseObservable.unsubscribeAll, BaseObservable.hasSubscriptions;
    simpl; rewrite ?app_nil_r; repeat split; reflexivity.
Qed.

(** Calling twice the closure a subscription to an [ApplyMap] returned:
    the first call runs the map's [onUnsubscribeLast], which unsubscribes
    it from its source and clears [_subscription]; the second call runs it
    again ([BaseObservable.unsubscribe] does not notice the handler is
    gone), and [this._subscription!()] throws a [TypeError]. *)
Theorem ApplyMap_second_unsubscribe_throws (own : BaseObservable.BaseObservable)
    (am : ApplyMap.ApplyMap) (h : nat) :
  BaseObservable._handlers own = [] ->
  let '(own1, am1) := ObservableClient.subscribe_map own am h in
  match ObservableClient.unsubscribe_map own1 am1 h with
  | Some (own2, am2) =>
      ApplyMap._subscription am2 = None
      /\ ~ In ApplyMap.self (BaseObservable._handlers (ApplyMap._source_observable am2))
      /\ ObservableClient.unsubscribe_map own2 am2 h = None
  | None => False
  end.
Proof.
  intros Hown; destruct own as [s log]; simpl in Hown; subst s.
  unfold ObservableClient.subscribe_map, BaseObservable.subscribe; simpl.
  rewrite ltb_snoc.
  unfold ObservableClient.unsubscribe_map, BaseObservable.unsubscribe_closure,
    BaseObservable.unsubscribe; simpl.
  unfold BaseObservable.set_delete; simpl; rewrite Nat.eqb_refl; simpl.
  rewrite ltb_snoc; simpl.
  rewrite ltb_snoc; simpl.
  split; [reflexivity|split; [|reflexivity]].
  unfold BaseObservable.unsubscribe_closure, BaseObservable.unsubscribe; cbn zeta.
  destruct (Nat.eqb _ 0); apply set_delete_notin.
Qed.

(** ** JoinedMap: size, get and occlusion *)

Lemma size_fold (l : list JoinedMap.source) (acc : nat) :
  fold_left (fun sum s => sum + List.length (snd s)) l acc
  = acc + List.length (List.concat (map snd l)).
Proof.
  revert acc; induction l as [|s l IH]; intros acc; simpl; [lia|].
  rewrite IH, length_app; unfold jsmap; lia.
Qed.

Lemma first_occ_length (seen : list key) (l : list (key * jsval)) :
  List.length (first_occ seen l) <= List.length l /\
  (List.length (first_occ seen l) = List.length l <->
   NoDup (map fst l) /\ Forall (fun k => ~ In k seen) (map fst l)).
Proof.
  revert seen; induction l as [|[k v] l IH]; intros seen; simpl.
  - split; [lia|]; split; [intros _; split; constructor|reflexivity].
  - destruct (existsb (String.eqb k) seen) eqn:Hk.
    + apply existsb_key_in in Hk; destruct (IH seen) as [Hle _].
      split; [lia|]; split; [lia|].
      intros [_ Hf]; apply Forall_cons_iff in Hf as [Hf _]; contradiction.
    + apply existsb_key_notin in Hk; destruct (IH (k :: seen)) as [Hle Hiff]; simpl.
      split; [lia|]; split.
      * intros E; assert (E' : List.length (first_occ (k :: seen) l) = List.length l) by lia.
        apply Hiff in E' as [Hnd Hf]; rewrite Forall_forall in Hf; split.
        -- constructor; [|exact Hnd]; intros Hin; apply (Hf k Hin); left; reflexivity.
        -- constructor; [exact Hk|]; rewrite Forall_forall; intros x Hx Hs.
           apply (Hf x Hx); right; exact Hs.
      * intros [Hnd Hf]; apply NoDup_cons_iff in Hnd as [Hkn Hnd].
        apply Forall_cons_iff in Hf as [_ Hf]; f_equal; apply Hiff; split; [exact Hnd|].
        rewrite Forall_forall in *; intros x Hx [<-|Hs]; [contradiction|exact (Hf x Hx Hs)].
Qed.

Lemma map_get_entry_value (m : jsmap) (k : key) :
  map_get m k = match entry_value m k with Some v => v | None => JUndefined end.
Proof. unfold map_get, entry_value; destruct (find (fun e => String.eqb (fst e) k) m) as [[k' v]|]; reflexivity. Qed.

Lemma entry_value_in (m : jsmap) (k : key) (v : jsval) :
  entry_value m k = Some v -> In (k, v) m.
Proof.
  unfold entry_value; destruct (find (fun e => String.eqb (fst e) k) m) as [[k' v']|] eqn:Hf;
    simpl; [|discriminate].
  intros Hv; inversion Hv; subst.
  apply find_some in Hf as [Hin Heq]; simpl in Heq; apply String.eqb_eq in Heq; subst; exact Hin.
Qed.

Lemma first_occ_entry_value (seen : list key) (l : list (key * jsval)) (k : key) :
  ~ In k seen -> entry_value (first_occ seen l) k = entry_value l k.
Proof.
  revert seen; induction l as [|[k' v'] l IH]; intros seen Hk; [reflexivity|]; simpl.
  rewrite entry_value_cons.
  destruct (existsb (String.eqb k') seen) eqn:Hs.
  - apply existsb_key_in in Hs.
    destruct (String.eqb_spec k' k) as [->|_]; [contradiction|]; apply IH; exact Hk.
  - rewrite entry_value_cons; destruct (String.eqb_spec k' k) as [->|Hne]; [reflexivity|].
    apply IH; simpl; intros [E|E]; [congruence|contradiction].
Qed.

(** [size] adds up the sizes of the sources: it is the number of entries
    across all sources, which bounds the number of entries iteration
    yields, and equals it exactly when no key is in two sources (or twice
    in one). *)
Theorem JoinedMap_size_bounds_iteration (jm : JoinedMap.JoinedMap) :
  JoinedMap.size jm = List.length (List.concat (map snd (JoinedMap._sources jm)))
  /\ List.length (JoinedMap.iterate jm) <= JoinedMap.size jm
  /\ (List.length (JoinedMap.iterate jm) = JoinedMap.size jm
      <-> NoDup (map fst (List.concat (map snd (JoinedMap._sources jm))))).
Proof.
  unfold JoinedMap.size; rewrite size_fold, iterate_first_occ; simpl.
  destruct (first_occ_length [] (List.concat (map snd (JoinedMap._sources jm)))) as [Hle Hiff].
  split; [reflexivity|split; [exact Hle|]].
  rewrite Hiff; split; [tauto|intros Hnd; split; [exact Hnd|]].
  apply Forall_forall; intros x _ [].
Qed.

(** When every value of every source is truthy, [get] returns the value
    iteration yields for the key, and [undefined] for a key iteration
    does not yield. *)
Theorem JoinedMap_get_agrees_with_iteration (jm : JoinedMap.JoinedMap) (k : key) :
  Forall (fun src => Forall (fun e => truthy (snd e) = true) (snd src)) (JoinedMap._sources jm) ->
  JoinedMap.get jm k
  = match entry_value (JoinedMap.iterate jm) k with Some v => v | None => JUndefined end.
Proof.
  intros Hall; rewrite iterate_first_occ, first_occ_entry_value by (intros []).
  destruct jm as [srcs subs]; unfold JoinedMap.get; simpl in *.
  induction srcs as [|[r m] srcs IH]; [reflexivity|].
  apply Forall_cons_iff in Hall as [Hm Hall]; simpl in Hm.
  simpl; rewrite entry_value_app, map_get_entry_value.
  destruct (entry_value m k) as [v|] eqn:Hv.
  - apply entry_value_in in Hv; rewrite Forall_forall in Hm.
    specialize (Hm _ Hv); simpl in Hm; rewrite Hm; reflexivity.
  - simpl; apply IH; exact Hall.
Qed.

(** A source whose key is set in an earlier source is occluded for that
    key: its add, remove and update events are dropped. *)
Theorem JoinedMap_occluded_source_events_dropped (l1 l2 : list JoinedMap.source) (s : nat)
    (m : jsmap) (subs : option (list nat)) (k : key) (v params : jsval) :
  ~ In s (map fst l1) ->
  Exists (fun src => map_get (snd src) k <> JUndefined) l1 ->
  let jm := JoinedMap.mkJoinedMap (l1 ++ (s, m) :: l2) subs in
  JoinedMap.onAdd jm s k v = [] /\ JoinedMap.onRemove jm s k v = []
  /\ JoinedMap.onUpdate jm s k v params = [].
Proof.
  intros Hs Hex jm.
  assert (Hocc : JoinedMap._isKeyAtSourceOccluded jm s k = true).
  { unfold jm, JoinedMap._isKeyAtSourceOccluded; simpl.
    rewrite indexOf_app by exact Hs.
    rewrite Nat2Z.id, firstn_app, Nat.sub_diag, firstn_all; simpl; rewrite app_nil_r.
    apply existsb_exists; apply Exists_exists in Hex as (src & Hin & Hv).
    exists src; split; [exact Hin|].
    destruct (map_get (snd src) k); simpl; congruence. }
  unfold JoinedMap.onAdd, JoinedMap.onRemove, JoinedMap.onUpdate; rewrite Hocc; simpl.
  unfold jm; simpl; destruct subs; repeat split; reflexivity.
Qed.

(** ** MappedMap *)

Section MappedMapProofs.
Import MappedMap.

Lemma existsb_fst_notin (c : jsmap) (k : key) :
  existsb (fun e => String.eqb (fst e) k) c = false <-> ~ In k (map fst c).
Proof.
  induction c as [|[k' v'] c IH]; simpl; [tauto|].
  destruct (String.eqb_spec k' k) as [->|Hne]; simpl; [intuition discriminate|].
  rewrite IH; intuition.
Qed.

Lemma map_set_fresh (c : jsmap) (k : key) (v : jsval) :
  ~ In k (map fst c) -> map_set c k v = c ++ [(k, v)].
Proof. intros Hk; unfold map_set; rewrite (proj2 (existsb_fst_notin c k) Hk); reflexivity. Qed.

Lemma keys_replace (c : jsmap) (k : key) (v : jsval) :
  map fst (map (fun e => if String.eqb (fst e) k then (k, v) else e) c) = map fst c.
Proof.
  induction c as [|[k' v'] c IH]; [reflexivity|]; simpl.
  destruct (String.eqb_spec k' k) as [->|_]; simpl; rewrite IH; reflexivity.
Qed.

Lemma keys_filter (c : jsmap) (k : key) :
  map fst (filter (fun e => negb (String.eqb (fst e) k)) c)
  = filter (fun x => negb (String.eqb x k)) (map fst c).
Proof.
  induction c as [|[k' v'] c IH]; [reflexivity|]; simpl.
  destruct (String.eqb k' k); simpl; rewrite IH; reflexivity.
Qed.

Lemma find_set_same (c : jsmap) (k : key) (v : jsval) :
  find (fun e => String.eqb (fst e) k) (map_set c k v) = Some (k, v).
Proof.
  unfold map_set; induction c as [|[k' v'] c IH]; simpl.
  - rewrite String.eqb_refl; reflexivity.
  - destruct (String.eqb_spec k' k) as [->|Hne]; simpl.
    + rewrite String.eqb_refl; reflexivity.
    + apply String.eqb_neq in Hne.
      destruct (existsb (fun e => String.eqb (fst e) k) c); simpl in *; rewrite Hne; exact IH.
Qed.

Lemma map_get_filter_same (c : jsmap) (k : key) :
  map_get (filter (fun e => negb (String.eqb (fst e) k)) c) k = JUndefined.
Proof.
  unfold map_get; induction c as [|[k' v'] c IH]; [reflexivity|]; simpl.
  destruct (String.eqb k' k) eqn:E; simpl; [exact IH|rewrite E; exact IH].
Qed.

Lemma subscribe_fold (f : mapper_fn) (src c : jsmap) :
  NoDup (map fst src) -> (forall k, In k (map fst src) -> ~ In k (map fst c)) ->
  fold_left (fun c e => map_set c (fst e) (f (snd e) (fst e))) src c
  = c ++ map (fun e => (fst e, f (snd e) (fst e))) src.
Proof.
  revert c; induction src as [|[k v] src IH]; intros c Hnd Hdis; simpl;
    [rewrite app_nil_r; reflexivity|].
  simpl in Hnd; apply NoDup_cons_iff in Hnd as [Hk Hnd].
  rewrite map_set_fresh by (apply Hdis; simpl; left; reflexivity).
  rewrite IH; [rewrite <- app_assoc; reflexivity|exact Hnd|].
  intros k' Hk'; rewrite map_app; simpl; intros Hin.
  apply in_app_or in Hin as [Hin|[<-|[]]].
  - apply (Hdis k'); [simpl; right; exact Hk'|exact Hin].
  - contradiction.
Qed.

Lemma handle_keys (mm : MappedMap) (src : jsmap) (op : source_op) :
  map fst (_mappedValues mm) = map fst src -> op_ok src op = true ->
  map fst (_mappedValues (handle mm op)) = map fst (apply_source src op).
Proof.
  intros Hk Hok; destruct op as [k v|k|k v params]; simpl in *.
  - apply negb_true_iff in Hok; unfold onAdd; simpl.
    rewrite map_set_fresh by (rewrite Hk; apply existsb_fst_notin; exact Hok).
    rewrite !map_app, Hk; reflexivity.
  - unfold onRemove, map_delete; simpl; rewrite !keys_filter, Hk; reflexivity.
  - unfold map_set; rewrite Hok, keys_replace; exact Hk.
Qed.

Lemma run_keys (ops : list source_op) :
  forall mm src, map fst (_mappedValues mm) = map fst src ->
  match run mm src ops with
  | Some (mm', src') => map fst (_mappedValues mm') = map fst src'
  | None => True
  end.
Proof.
  induction ops as [|op ops IH]; intros mm src Hk; simpl; [exact Hk|].
  destruct (op_ok src op) eqn:Hok; [|exact I].
  apply IH, handle_keys; assumption.
Qed.

End MappedMapProofs.

(** Subscribing fills the cache with the mapped source entries, in the
    source's order; afterwards, through every change the source can
    report, the cache holds exactly the source's keys in the source's
    order, and [size] is the source's size. *)
Theorem MappedMap_cache_follows_source_keys (mm : MappedMap.MappedMap) (src : jsmap)
    (ops : list MappedMap.source_op) :
  MappedMap._mappedValues mm = [] -> NoDup (map fst src) ->
  MappedMap.iterate (MappedMap.onSubscribeFirst mm src)
  = map (fun e => (fst e, MappedMap._mapper mm (snd e) (fst e))) src
  /\ match MappedMap.run (MappedMap.onSubscribeFirst mm src) src ops with
     | Some (mm', src') =>
         map fst (MappedMap.iterate mm') = map fst src'
         /\ MappedMap.size mm' = List.length src'
     | None => True
     end.
Proof.
  intros Hc Hnd.
  assert (Hsub : MappedMap.iterate (MappedMap.onSubscribeFirst mm src)
                 = map (fun e => (fst e, MappedMap._mapper mm (snd e) (fst e))) src).
  { unfold MappedMap.iterate, MappedMap.onSubscribeFirst; simpl; rewrite Hc.
    apply subscribe_fold; [exact Hnd|intros k _ []]. }
  split; [exact Hsub|].
  pose proof (run_keys ops (MappedMap.onSubscribeFirst mm src) src) as H.
  destruct (MappedMap.run _ src ops) as [[mm' src']|]; [|exact I].
  assert (Hk : map fst (MappedMap.iterate mm') = map fst src').
  { apply H; unfold MappedMap.iterate in Hsub; rewrite Hsub, map_map; reflexivity. }
  split; [exact Hk|].
  unfold MappedMap.size; rewrite <- (length_map fst src'), <- Hk; unfold MappedMap.iterate.
  rewrite length_map; reflexivity.
Qed.

(** After [onAdd], [get] returns the mapped value; a spontaneous update
    of the key is emitted only when that value is truthy, while a source
    update is forwarded whenever it is not [undefined]; [onRemove] then
    emits the removal with the mapped value and drops the key. *)
Theorem MappedMap_add_update_remove (mm : MappedMap.MappedMap) (k : key) (value params : jsval) :
  let mm1 := fst (MappedMap.onAdd mm k value) in
  let mv := MappedMap._mapper mm value k in
  MappedMap.get mm1 k = mv
  /\ MappedMap._emitSpontaneousUpdate mm1 k params
     = (if truthy mv then [MUpdate k mv params] else [])
  /\ MappedMap.onUpdate mm1 k value params
     = (if is_undefined mv then [] else [MUpdate k mv params])
  /\ snd (MappedMap.onRemove mm1 k) = [MRemove k mv]
  /\ MappedMap.get (fst (MappedMap.onRemove mm1 k)) k = JUndefined.
Proof.
  intros mm1 mv.
  assert (Hg : MappedMap.get mm1 k = mv).
  { unfold MappedMap.get, map_get, mm1, mv; simpl; rewrite find_set_same; reflexivity. }
  assert (Hg' : map_get (MappedMap._mappedValues mm1) k = mv) by exact Hg.
  unfold MappedMap._emitSpontaneousUpdate, MappedMap.onUpdate, MappedMap.onRemove,
    MappedMap.map_delete; rewrite Hg'.
  split; [exact Hg|split; [reflexivity|split]].
  - destruct (is_undefined mv); reflexivity.
  - assert (He : existsb (fun e => String.eqb (fst e) k) (MappedMap._mappedValues mm1) = true).
    { unfold mm1; simpl; apply existsb_exists; exists (k, MappedMap._mapper mm value k).
      split; [apply (find_some _ _ (find_set_same _ _ _))|apply String.eqb_refl]. }
    rewrite He; split; [reflexivity|].
    unfold MappedMap.get; simpl; apply map_get_filter_same.
Qed.

(** ** sortedIndex stays in range *)






(** ** Witnesses *)

Local Open Scope string_scope.

Lemma FilteredList_setFilter_updates_view_witness :
  FilteredList._subscription (FilteredList.mkFilteredList None None true) = true
  /\ let '(fl', evs) :=
       FilteredList.setFilter (FilteredList.mkFilteredList None None true)
         (Some (fun v _ => match v with JNum z => Z.odd z | _ => false end))
         [JNum 1; JNum 2; JNum 3] in
     apply_list_events [JNum 1; JNum 2; JNum 3] evs = filtered_view fl' [JNum 1; JNum 2; JNum 3]
     /\ filtered_view fl' [JNum 1; JNum 2; JNum 3] = [JNum 1; JNum 3]
     /\ FilteredList._included fl' = Some [true; false; true].
Proof.
  split; [reflexivity|].
  exact (FilteredList_setFilter_updates_view (FilteredList.mkFilteredList None None true)
           (Some (fun v _ => match v with JNum z => Z.odd z | _ => false end))
           [JNum 1; JNum 2; JNum 3] eq_refl).
Defined.

Lemma FilteredList_first_subscription_builds_mask_witness :
  let p := fun v (_ : nat) => match v with JNum z => Z.odd z | _ => false end in
  let fl := FilteredList.mkFilteredList (Some p) None false in
  FilteredList._filter fl = Some p /\ FilteredList._included fl = None
  /\ let fl' := FilteredList.onSubscribeFirst fl [JNum 1; JNum 2; JNum 3] in
     FilteredList._subscription fl' = true
     /\ FilteredList._included fl' = Some [true; false; true]
     /\ FilteredList.iterate fl' [JNum 1; JNum 2; JNum 3] = Some [JNum 1; JNum 3]
     /\ FilteredList.length fl' = Some 2%nat.
Proof.
  intros p fl; split; [reflexivity|split; [reflexivity|]].
  exact (FilteredList_first_subscription_builds_mask fl p [JNum 1; JNum 2; JNum 3]
           eq_refl eq_refl).
Defined.

Lemma FilteredList_onUpdate_updates_view_witness :
  let p := fun v (_ : nat) => match v with JNum z => Z.odd z | _ => false end in
  let fl := FilteredList.mkFilteredList (Some p) (Some [true; false; true]) true in
  (1 < List.length [JNum 1; JNum 2; JNum 3])%nat /\ (1 < List.length [true; false; true])%nat
  /\ match FilteredList.onUpdate fl 1 (JNum 5) JNull with
     | Some (fl', evs) =>
         FilteredList._included fl' = Some [true; true; true]
         /\ apply_list_events [JNum 1; JNum 3] evs = filtered_view fl' [JNum 1; JNum 5; JNum 3]
     | None => False
     end.
Proof.
  intros p fl; split; [simpl; lia|split; [simpl; lia|]].
  exact (FilteredList_onUpdate_updates_view fl p [true; false; true] [JNum 1; JNum 2; JNum 3]
           1 (JNum 5) JNull eq_refl eq_refl ltac:(simpl; lia) ltac:(simpl; lia)).
Defined.

Lemma FilteredList_onRemove_updates_view_witness :
  let p := fun v (_ : nat) => match v with JNum z => Z.odd z | _ => false end in
  let fl := FilteredList.mkFilteredList (Some p) (Some [true; false; true]) true in
  (0 < List.length [JNum 1; JNum 2; JNum 3])%nat
  /\ match FilteredList.onRemove fl [JNum 2; JNum 3] 0 (JNum 1) with
     | Some (fl', evs) =>
         FilteredList._included fl' = Some [false; true]
         /\ apply_list_events [JNum 1; JNum 3] evs = filtered_view fl' [JNum 2; JNum 3]
         /\ filtered_view fl' [JNum 2; JNum 3] = [JNum 3]
     | None => False
     end.
Proof.
  intros p fl; split; [simpl; lia|].
  exact (FilteredList_onRemove_updates_view fl p [true; false; true] [JNum 1; JNum 2; JNum 3]
           0 (JNum 1) eq_refl eq_refl ltac:(simpl; lia) eq_refl).
Defined.

Lemma FilteredList_onAdd_updates_view_witness :
  let p := fun v (_ : nat) => match v with JNum z => Z.odd z | _ => false end in
  let fl := FilteredList.mkFilteredList (Some p) (Some [true; false; true]) true in
  (1 <= List.length [JNum 1; JNum 2; JNum 3])%nat
  /\ let '(fl', evs) := FilteredList.onAdd fl [JNum 1; JNum 7; JNum 2; JNum 3] 1 (JNum 7) in
     apply_list_events [JNum 1; JNum 3] evs = filtered_view fl' [JNum 1; JNum 7; JNum 2; JNum 3]
     /\ (true = true ->
         filtered_view fl' [JNum 1; JNum 7; JNum 2; JNum 3] = [JNum 1; JNum 7; JNum 3]).
Proof.
  intros p fl; split; [simpl; lia|].
  exact (FilteredList_onAdd_updates_view fl p [true; false; true] [JNum 1; JNum 2; JNum 3]
           1 (JNum 7) eq_refl eq_refl ltac:(simpl; lia) eq_refl).
Defined.

Lemma FilteredList_onMove_updates_view_witness :
  let p := fun v (_ : nat) => match v with JNum z => Z.odd z | _ => false end in
  let fl := FilteredList.mkFilteredList (Some p) (Some [true; false; true]) true in
  (0 < List.length [JNum 1; JNum 2; JNum 3])%nat /\ (1 < List.length [JNum 1; JNum 2; JNum 3])%nat
  /\ match FilteredList.onMove fl [JNum 2; JNum 1; JNum 3] 0 1 (JNum 1) with
     | Some (fl', evs) =>
         FilteredList._included fl' = Some [false; true; true]
         /\ apply_list_events [JNum 1; JNum 3] evs = filtered_view fl' [JNum 2; JNum 1; JNum 3]
         /\ filtered_view fl' [JNum 2; JNum 1; JNum 3] = [JNum 1; JNum 3]
     | None => False
     end.
Proof.
  intros p fl; split; [simpl; lia|split; [simpl; lia|]].
  exact (FilteredList_onMove_updates_view fl p [true; false; true] [JNum 1; JNum 2; JNum 3]
           0 1 (JNum 1) eq_refl eq_refl ltac:(simpl; lia) ltac:(simpl; lia) eq_refl).
Defined.

Lemma BaseObservable_disciplined_clients_alternate_hooks_witness :
  let ops := [ObservableClient.Sub 1; ObservableClient.Sub 2; ObservableClient.Unsub 1;
              ObservableClient.Unsub 2; ObservableClient.Sub 3] in
  ObservableClient.disciplined BaseObservable.empty ops = true
  /\ ObservableClient.bracketed (ObservableClient.run BaseObservable.empty ops).
Proof.
  intros ops; split; [reflexivity|].
  apply BaseObservable_disciplined_clients_alternate_hooks; reflexivity.
Defined.

Lemma ApplyMap_second_unsubscribe_throws_witness :
  let own := BaseObservable.mkBaseObservable [] [] in
  let am := ApplyMap.mkApplyMap [("a", JNum 1)] BaseObservable.empty (Some 7) None in
  BaseObservable._handlers own = []
  /\ let '(own1, am1) := ObservableClient.subscribe_map own am 1 in
     match ObservableClient.unsubscribe_map own1 am1 1 with
     | Some (own2, am2) =>
         ApplyMap._subscription am2 = None
         /\ ~ In ApplyMap.self (BaseObservable._handlers (ApplyMap._source_observable am2))
         /\ ObservableClient.unsubscribe_map own2 am2 1 = None
     | None => False
     end.
Proof.
  intros own am; split; [reflexivity|].
  exact (ApplyMap_second_unsubscribe_throws own am 1 eq_refl).
Defined.

Lemma JoinedMap_get_agrees_with_iteration_witness :
  let jm := JoinedMap.mkJoinedMap [(1, [("a", JNum 1)]); (2, [("a", JNum 2); ("b", JStr "x")])]
              None in
  Forall (fun src => Forall (fun e => truthy (snd e) = true) (snd src)) (JoinedMap._sources jm)
  /\ JoinedMap.get jm "b" = JStr "x"
  /\ JoinedMap.get jm "b"
     = match entry_value (JoinedMap.iterate jm) "b" with Some v => v | None => JUndefined end.
Proof.
  intros jm.
  assert (H : Forall (fun src => Forall (fun e => truthy (snd e) = true) (snd src))
                (JoinedMap._sources jm)) by (repeat constructor).
  split; [exact H|split; [reflexivity|]].
  exact (JoinedMap_get_agrees_with_iteration jm "b" H).
Defined.

Lemma JoinedMap_occluded_source_events_dropped_witness :
  ~ In 2%nat (map fst [(1%nat, [("a", JNum 1)])])
  /\ Exists (fun src => map_get (snd src) "a" <> JUndefined) [(1%nat, [("a", JNum 1)])]
  /\ let jm := JoinedMap.mkJoinedMap ([(1%nat, [("a", JNum 1)])] ++ (2%nat, [("a", JNum 2)]) :: [])
                 (Some [0%nat; 1%nat]) in
     JoinedMap.onAdd jm 2 "a" (JNum 3) = [] /\ JoinedMap.onRemove jm 2 "a" (JNum 3) = []
     /\ JoinedMap.onUpdate jm 2 "a" (JNum 3) JNull = [].
Proof.
  assert (Hs : ~ In 2%nat (map fst [(1%nat, [("a", JNum 1)])])) by (simpl; lia).
  assert (He : Exists (fun src => map_get (snd src) "a" <> JUndefined)
                 [(1%nat, [("a", JNum 1)])]) by (constructor; vm_compute; discriminate).
  split; [exact Hs|split; [exact He|]].
  exact (JoinedMap_occluded_source_events_dropped [(1%nat, [("a", JNum 1)])] []
           2 [("a", JNum 2)] (Some [0%nat; 1%nat]) "a" (JNum 3) JNull Hs He).
Defined.

Lemma MappedMap_cache_follows_source_keys_witness :
  let mm := MappedMap.mkMappedMap (fun v _ => v) [] false in
  let src := [("a", JNum 1); ("b", JNum 2)] in
  let ops := [MappedMap.OAdd "c" (JNum 3); MappedMap.ORemove "a";
              MappedMap.OUpdate "b" (JNum 4) JNull] in
  MappedMap._mappedValues mm = [] /\ NoDup (map fst src)
  /\ MappedMap.run (MappedMap.onSubscribeFirst mm src) src ops
     = Some (MappedMap.mkMappedMap (fun v _ => v) [("b", JNum 2); ("c", JNum 3)] true,
             [("b", JNum 4); ("c", JNum 3)])
  /\ MappedMap.iterate (MappedMap.onSubscribeFirst mm src)
     = map (fun e => (fst e, MappedMap._mapper mm (snd e) (fst e))) src
  /\ match MappedMap.run (MappedMap.onSubscribeFirst mm src) src ops with
     | Some (mm', src') =>
         map fst (MappedMap.iterate mm') = map fst src'
         /\ MappedMap.size mm' = List.length src'
     | None => True
     end.
Proof.
  intros mm src ops.
  assert (Hnd : NoDup (map fst src)).
  { simpl; constructor; [simpl; intros [H|[]]; discriminate H|].
    constructor; [intros []|constructor]. }
  split; [reflexivity|split; [exact Hnd|split; [reflexivity|]]].
  exact (MappedMap_cache_follows_source_keys mm src ops eq_refl Hnd).
Defined.

